(** * TEx-RL-Check: the classification pipeline of [rlcheckmt.py]

    A shallow embedding of the Python sources [rlcheckmt.py] (the threaded
    pipeline) and [rlcheck.py] (its single-threaded predecessor).

    - Python dictionaries read from the CSV file are finite maps from
      column names to values ([gmap string pyval]).
    - A Python exception that escapes a function is the [Raise] outcome of
      the [result] monad.
    - [requests.get] is the environment: it hands back a response, whose
      body is a document of the service or is not JSON at all, or it raises.
    - [queue.Queue] is a list of items plus the counter of unfinished
      tasks that [task_done] decrements and [join] waits on.
    - Threads are interleaved by an explicit scheduler ([Module Pipeline]). *)

From Stdlib Require Import ZArith.
From stdpp Require Import gmap strings list fin_maps.

Local Open Scope Z_scope.

(** ** Python values and exceptions *)

(** The values a row can hold: the strings that [csv.DictReader] produces
    and the integer that [do_work] stores under [BC_RiskLevel]. *)
Inductive pyval :=
  | VStr (s : string)
  | VInt (n : Z).

#[global] Instance pyval_eq_dec : EqDecision pyval.
Proof. solve_decision. Defined.

(** [IndicatorRecord]: one input row, a dict from column name to value. *)
Abbreviation IndicatorRecord := (gmap string pyval).

Inductive pyexc :=
  | RequestException (msg : string)
  | UnboundLocalError (var : string)
  | KeyError (key : string)
  | TypeError (msg : string)
  | ValueError (msg : string).

#[global] Instance pyexc_eq_dec : EqDecision pyexc.
Proof. solve_decision. Defined.

(** A computation returns a value or raises. *)
Inductive result (A : Type) :=
  | Ok (a : A)
  | Raise (e : pyexc).
Arguments Ok {A} a.
Arguments Raise {A} e.

#[global] Instance result_ret : MRet result := fun A a => Ok a.
#[global] Instance result_bind : MBind result := fun A B k c =>
  match c with
  | Ok a => k a
  | Raise e => Raise e
  end.

(** [row[key]] where the script goes on to use the value as a string. *)
Definition getitem_str (row : IndicatorRecord) (key : string) : result string :=
  match row !! key with
  | None => Raise (KeyError key)
  | Some (VStr s) => Ok s
  | Some (VInt _) => Raise (TypeError "can only concatenate str")
  end.

(** ** Application variables *)

Definition SUPPORTED_THREAT_TYPES : list string := ["IP Address"; "Domain"; "URL"].
Definition MIN_BLOCKED_RISK_LEVEL : Z := 8.
Definition BLOCKED_CATEGORY_IDS : list Z := [17; 18; 43; 44].

(** [x in xs] on Python lists. *)
Definition py_in `{EqDecision A} (x : A) (xs : list A) : bool :=
  bool_decide (x ∈ xs).

(** ** The classifier client: [rlcheck] *)

Module Classifier.

(** The part of the Threat Explorer answer that the script reads. The two
    nested [in] tests of the source are the two nested options here. *)
Record category_t := { id : Z; name : string }.
Record categorization_t := { categories : option (list category_t) }.
Record threatRiskLevel_t := { level : option Z }.
Record json_t := {
  categorization : option categorization_t;
  threatRiskLevel : option threatRiskLevel_t
}.
Record response_t := { status_code : Z; json : json_t }.

(** What [requests.get] does. [Responded r]: it returns a response; the
    body is read only when the status is 200, and [json r] is then what
    [response.json()] returns, a document of the service. [Undecodable e]:
    it returns a response with status 200 whose body is not JSON, so that
    [response.json()] raises [e]. [Failed e]: it raises [e] itself. *)
Inductive http_outcome :=
  | Responded (r : response_t)
  | Undecodable (e : pyexc)
  | Failed (e : pyexc).

(** [ret['error']] holds an integer, or the exception object that the
    [except] clause stores in it. *)
Inductive errval :=
  | ErrCode (n : Z)
  | ErrExc (e : pyexc).

(** [ret['error'] != 0] *)
Definition err_nonzero (e : errval) : bool :=
  match e with
  | ErrCode n => negb (n =? 0)
  | ErrExc _ => true
  end.

(** The dict [ret]. The keys [blocked_by_cat] and [blocked_by_rl] exist
    only once they have been assigned. *)
Record ClassificationResult := {
  error : errval;
  blocked : Z;
  risklevel : Z;
  category : list string;
  blocked_by_cat : option Z;
  blocked_by_rl : option Z
}.

Definition set_error (v : errval) (r : ClassificationResult) :=
  {| error := v; blocked := blocked r; risklevel := risklevel r;
     category := category r; blocked_by_cat := blocked_by_cat r;
     blocked_by_rl := blocked_by_rl r |}.
Definition set_blocked (v : Z) (r : ClassificationResult) :=
  {| error := error r; blocked := v; risklevel := risklevel r;
     category := category r; blocked_by_cat := blocked_by_cat r;
     blocked_by_rl := blocked_by_rl r |}.
Definition set_risklevel (v : Z) (r : ClassificationResult) :=
  {| error := error r; blocked := blocked r; risklevel := v;
     category := category r; blocked_by_cat := blocked_by_cat r;
     blocked_by_rl := blocked_by_rl r |}.
Definition set_category (v : list string) (r : ClassificationResult) :=
  {| error := error r; blocked := blocked r; risklevel := risklevel r;
     category := v; blocked_by_cat := blocked_by_cat r;
     blocked_by_rl := blocked_by_rl r |}.
Definition set_blocked_by_cat (v : Z) (r : ClassificationResult) :=
  {| error := error r; blocked := blocked r; risklevel := risklevel r;
     category := category r; blocked_by_cat := Some v;
     blocked_by_rl := blocked_by_rl r |}.
Definition set_blocked_by_rl (v : Z) (r : ClassificationResult) :=
  {| error := error r; blocked := blocked r; risklevel := risklevel r;
     category := category r; blocked_by_cat := blocked_by_cat r;
     blocked_by_rl := Some v |}.

Definition tex_api_url : string :=
  "https://threatexplorer.symantec.com/api/v1/url" +:+ "?level=STANDARD&url=".

(** Body of [for cat in categories]. *)
Definition categories_step (ret : ClassificationResult) (cat : category_t)
  : ClassificationResult :=
  let ret := set_category (category ret ++ [name cat]) ret in
  if py_in (id cat) BLOCKED_CATEGORY_IDS
  then set_blocked_by_cat 1 (set_blocked 1 ret)
  else ret.

(** The [status_code == 200] branch. *)
Definition on_ok (data : json_t) (ret : ClassificationResult)
  : ClassificationResult :=
  let ret := set_category [] (set_blocked 0 (set_error (ErrCode 0) ret)) in
  let ret :=
    match categorization data with
    | Some c =>
        match categories c with
        | Some cats => foldl categories_step ret cats
        | None => ret
        end
    | None => ret
    end in
  match threatRiskLevel data with
  | Some t =>
      match level t with
      | Some lvl =>
          let ret := set_risklevel lvl ret in
          if MIN_BLOCKED_RISK_LEVEL <=? lvl
          then set_blocked_by_rl 1 (set_blocked 1 ret)
          else ret
      | None => ret
      end
  | None => ret
  end.

Section WithNetwork.
(** The network, as seen through [requests.get]. *)
Variable requests_get : string → http_outcome.

(** [rlcheck(ioc)] of [rlcheckmt.py]. The local variable [response] is
    [None] while it is unbound: reading it then raises
    [UnboundLocalError]. The [except] clause catches
    [requests.exceptions.RequestException] only, and only around the
    request: [response.json()] is called outside of it. *)
Definition rlcheck (ioc : string) : result ClassificationResult :=
  let ret := {| error := ErrCode 0; blocked := 0; risklevel := 0;
                category := []; blocked_by_cat := None;
                blocked_by_rl := None |} in
  '(ret, response) ←
    match requests_get (tex_api_url +:+ ioc) with
    | Responded r => Ok (ret, Some (inl r))
    | Undecodable e => Ok (ret, Some (inr e))
    | Failed (RequestException msg) =>
        Ok (set_error (ErrExc (RequestException msg)) ret, None)
    | Failed e => Raise e
    end;
  match response with
  | None => Raise (UnboundLocalError "response")
  | Some (inr e) =>
      (* status 200: [data = response.json()] raises *)
      Raise e
  | Some (inl response) =>
      if status_code response =? 200 then Ok (on_ok (json response) ret)
      else if status_code response =? 400 then Ok (set_error (ErrCode 400) ret)
      else if status_code response =? 401 then Ok (set_error (ErrCode 401) ret)
      else if status_code response =? 429 then Ok (set_error (ErrCode 429) ret)
      else Ok ret
  end.
End WithNetwork.

End Classifier.

(** ** Effects on the shared objects

    [do_work] and the ingestion loop of [main] act on the queues of the
    sinks, of the aggregator and on the work queue [q]. Each call is one
    effect; a function returns its effects in program order. *)

Inductive sink_id :=
  | Blocked   (* csv_blocked *)
  | Policy    (* csv_policy *)
  | Error.    (* csv_error *)

#[global] Instance sink_id_eq_dec : EqDecision sink_id.
Proof. solve_decision. Defined.

(** The dict [{'type': ...}] handed to [stat.update]. *)
Record StatEvent := { type : string }.

#[global] Instance StatEvent_eq_dec : EqDecision StatEvent.
Proof. solve_decision. Defined.

Inductive effect :=
  | Log (err : Classifier.errval) (ioc : string)      (* log(f"Error ...") *)
  | StatUpdate (data : StatEvent)                     (* stat.update(data) *)
  | SinkWrite (k : sink_id) (item : IndicatorRecord)  (* csv_k.write(item) *)
  | QPut (item : IndicatorRecord).                    (* q.put(item) *)

(** The records written to sink [k], the stat events and the records put
    on the work queue by a run of effects, each in program order. *)
Definition sink_writes (k : sink_id) (effs : list effect) : list IndicatorRecord :=
  omap (fun e => match e with
                 | SinkWrite k' item => if decide (k' = k) then Some item else None
                 | _ => None
                 end) effs.

Definition stat_updates (effs : list effect) : list StatEvent :=
  omap (fun e => match e with StatUpdate d => Some d | _ => None end) effs.

Definition queue_puts (effs : list effect) : list IndicatorRecord :=
  omap (fun e => match e with QPut item => Some item | _ => None end) effs.

(** ** The worker: [do_work] *)

Module Worker.
Import Classifier.

(** The loop [for cat in ret['category']] that builds [categories]. *)
Definition join_categories (cats : list string) : string :=
  foldl (fun categories cat =>
           if String.eqb categories "" then cat
           else categories +:+ ", " +:+ cat) "" cats.

(** [item.update({'BC_RiskLevel': ..., 'BC_Category': ...})] *)
Definition item_update (risklevel : Z) (categories : string)
    (item : IndicatorRecord) : IndicatorRecord :=
  <["BC_Category" := VStr categories]> (<["BC_RiskLevel" := VInt risklevel]> item).

(** [do_work(item, csv_blocked, csv_policy, csv_error, stat)]: the item as
    it is when the call returns, and the effects of the call. *)
Definition do_work (requests_get : string → http_outcome) (item : IndicatorRecord)
    : result (IndicatorRecord * list effect) :=
  ioc ← getitem_str item "Indicator";
  ret ← rlcheck requests_get ioc;
  if err_nonzero (error ret) then
    Ok (item, [Log (error ret) ioc;
               StatUpdate {| type := "error" |};
               SinkWrite Error item])
  else
    let categories := join_categories (category ret) in
    let item := item_update (risklevel ret) categories item in
    if blocked ret =? 1 then
      Ok (item, [SinkWrite Blocked item; StatUpdate {| type := "blocked" |}])
    else
      Ok (item, [SinkWrite Policy item; StatUpdate {| type := "policy" |}]).

End Worker.

(** ** The aggregator: [IOCStat] *)

Module Aggregator.

Record counters := {
  ioc_blocked : Z;
  ioc_policy : Z;
  ioc_error : Z;
  ioc_total : Z
}.

(** The counters set by [IOCStat.__init__]. *)
Definition zero : counters :=
  {| ioc_blocked := 0; ioc_policy := 0; ioc_error := 0; ioc_total := 0 |}.

(** What [stat_keeper] does with one event taken from its queue. *)
Definition apply_event (c : counters) (data : StatEvent) : counters :=
  let c :=
    if String.eqb (type data) "blocked" then
      {| ioc_blocked := ioc_blocked c + 1; ioc_policy := ioc_policy c;
         ioc_error := ioc_error c; ioc_total := ioc_total c |}
    else if String.eqb (type data) "policy" then
      {| ioc_blocked := ioc_blocked c; ioc_policy := ioc_policy c + 1;
         ioc_error := ioc_error c; ioc_total := ioc_total c |}
    else if String.eqb (type data) "error" then
      {| ioc_blocked := ioc_blocked c; ioc_policy := ioc_policy c;
         ioc_error := ioc_error c + 1; ioc_total := ioc_total c |}
    else c in
  {| ioc_blocked := ioc_blocked c; ioc_policy := ioc_policy c;
     ioc_error := ioc_error c; ioc_total := ioc_total c + 1 |}.

(** The events of a run, applied in the order the queue delivers them. *)
Definition stat_keeper (events : list StatEvent) : counters :=
  foldl apply_event zero events.

(** The closed set of tags. *)
Definition valid_tag (data : StatEvent) : Prop :=
  type data ∈ ["blocked"; "policy"; "error"].

(** [total == blocked + policy + error] *)
Definition balanced (c : counters) : Prop :=
  ioc_total c = ioc_blocked c + ioc_policy c + ioc_error c.

(** No counter went down from [c1] to [c2]. *)
Definition counters_le (c1 c2 : counters) : Prop :=
  ioc_blocked c1 ≤ ioc_blocked c2 ∧ ioc_policy c1 ≤ ioc_policy c2 ∧
  ioc_error c1 ≤ ioc_error c2 ∧ ioc_total c1 ≤ ioc_total c2.

End Aggregator.

(** ** [queue.Queue]

    The standard library's queue: the items not yet taken, and the number
    of items put but not yet acknowledged by [task_done]. [join] returns
    only while that number is zero. *)

Module Queue.

Record t (A : Type) := { items : list A; unfinished_tasks : nat }.
Arguments items {A} _.
Arguments unfinished_tasks {A} _.

Definition new {A} : t A := {| items := []; unfinished_tasks := 0 |}.

Definition put {A} (x : A) (qu : t A) : t A :=
  {| items := items qu ++ [x]; unfinished_tasks := S (unfinished_tasks qu) |}.

(** [get] with a timeout: [None] is the [queue.Empty] exception. *)
Definition get {A} (qu : t A) : option (A * t A) :=
  match items qu with
  | [] => None
  | x :: rest => Some (x, {| items := rest; unfinished_tasks := unfinished_tasks qu |})
  end.

Definition task_done {A} (qu : t A) : result (t A) :=
  match unfinished_tasks qu with
  | O => Raise (ValueError "task_done() called too many times")
  | S n => Ok {| items := items qu; unfinished_tasks := n |}
  end.

(** The condition [join] waits for. *)
Definition all_tasks_done {A} (qu : t A) : bool :=
  bool_decide (unfinished_tasks qu = O).

End Queue.

(** ** Output files *)

Inductive line :=
  | Header (fieldnames : list string)   (* writeheader() *)
  | Row (data : IndicatorRecord).       (* writerow(data) *)

Abbreviation filesystem := (gmap string (list line)).

(** The rows of a file, without its header. *)
Definition rows_of (lines : list line) : list IndicatorRecord :=
  omap (fun l => match l with Row d => Some d | Header _ => None end) lines.

(** ** The result sink: [CSVWriter] *)

Module CSVWriter.

(** Where the thread that runs [internal_writer] stands. *)
Inductive writer_pc :=
  | WrLoop                          (* while not self.finished *)
  | WrGet                           (* data = self.queue.get(True, 1) *)
  | WrRow (data : IndicatorRecord)  (* self.csvwriter.writerow(data) *)
  | WrDone                          (* self.queue.task_done() *)
  | WrExit                          (* the loop is left *)
  | WrDead (e : pyexc).             (* an exception ended the thread *)

(** [submitted] is a history variable: every record ever passed to
    [write], oldest first. The source has no such attribute. *)
Record t := {
  path : string;
  fieldnames : list string;
  queue : Queue.t IndicatorRecord;
  finished : bool;
  closed : bool;
  writer : writer_pc;
  submitted : list IndicatorRecord
}.

Definition set_queue (v : Queue.t IndicatorRecord) (w : t) : t :=
  {| path := path w; fieldnames := fieldnames w; queue := v;
     finished := finished w; closed := closed w; writer := writer w;
     submitted := submitted w |}.
Definition set_finished (v : bool) (w : t) : t :=
  {| path := path w; fieldnames := fieldnames w; queue := queue w;
     finished := v; closed := closed w; writer := writer w;
     submitted := submitted w |}.
Definition set_closed (v : bool) (w : t) : t :=
  {| path := path w; fieldnames := fieldnames w; queue := queue w;
     finished := finished w; closed := v; writer := writer w;
     submitted := submitted w |}.
Definition set_writer (v : writer_pc) (w : t) : t :=
  {| path := path w; fieldnames := fieldnames w; queue := queue w;
     finished := finished w; closed := closed w; writer := v;
     submitted := submitted w |}.

(** [CSVWriter(path, fieldnames, "w")]: the file is created (or emptied)
    and receives its header; the writer thread is started. *)
Definition __init__ (path : string) (fieldnames : list string)
    (fs : filesystem) : t * filesystem :=
  ({| path := path; fieldnames := fieldnames; queue := Queue.new;
      finished := false; closed := false; writer := WrLoop;
      submitted := [] |},
   <[path := [Header fieldnames]]> fs).

(** [write(data)] *)
Definition write (data : IndicatorRecord) (w : t) : t :=
  {| path := path w; fieldnames := fieldnames w;
     queue := Queue.put data (queue w);
     finished := finished w; closed := closed w; writer := writer w;
     submitted := submitted w ++ [data] |}.

(** [rowdict.keys() - self.fieldnames]: the first thing that
    [csv.DictWriter.writerow] computes. The writer is created with the
    default [extrasaction='raise'], so [writerow] raises [ValueError] if
    this is not empty. *)
Definition wrong_fields (fieldnames : list string) (rowdict : IndicatorRecord)
    : list string :=
  filter (fun key => key ∉ fieldnames) (map_to_list rowdict).*1.

(** One step of the thread running [internal_writer]; [None] when the
    thread has ended. Only [queue.Empty] is caught: any other exception
    ends the thread, before [task_done] is called. *)
Definition internal_writer (w : t) (fs : filesystem) : option (t * filesystem) :=
  match writer w with
  | WrLoop => Some (set_writer (if finished w then WrExit else WrGet) w, fs)
  | WrGet =>
      match Queue.get (queue w) with
      | Some (data, qu) => Some (set_writer (WrRow data) (set_queue qu w), fs)
      | None => Some (set_writer WrLoop w, fs)
      end
  | WrRow data =>
      match wrong_fields (fieldnames w) data with
      | _ :: _ =>
          Some (set_writer
                  (WrDead (ValueError "dict contains fields not in fieldnames")) w, fs)
      | [] =>
          if closed w
          then Some (set_writer (WrDead (ValueError "I/O operation on closed file")) w, fs)
          else Some (set_writer WrDone w, alter (fun ls => ls ++ [Row data]) (path w) fs)
      end
  | WrDone =>
      match Queue.task_done (queue w) with
      | Ok qu => Some (set_writer WrLoop (set_queue qu w), fs)
      | Raise e => Some (set_writer (WrDead e) w, fs)
      end
  | WrExit | WrDead _ => None
  end.

(** [close()] is three statements; the caller stands before one of them. *)
Inductive close_pc :=
  | CJoin       (* self.queue.join() *)
  | CFinished   (* self.finished = True *)
  | CRelease.   (* self.filewriter.close() *)

(** One step of a thread inside [close()]: the sink, and where the caller
    stands next ([None]: [close] has returned). A caller blocked in [join]
    cannot step. *)
Definition close (c : close_pc) (w : t) : option (t * option close_pc) :=
  match c with
  | CJoin => if Queue.all_tasks_done (queue w) then Some (w, Some CFinished) else None
  | CFinished => Some (set_finished true w, Some CRelease)
  | CRelease => Some (set_closed true w, None)
  end.

End CSVWriter.

(** ** The aggregator object: [IOCStat] *)

Module IOCStat.
Import Aggregator.

Inductive keeper_pc :=
  | SkLoop                     (* while not self.finished *)
  | SkGet                      (* data = self.queue.get(True, 1) *)
  | SkApply (data : StatEvent) (* the if/elif chain and ioc_total += 1 *)
  | SkDone                     (* self.queue.task_done() *)
  | SkExit
  | SkDead (e : pyexc).

Record t := {
  count : counters;
  queue : Queue.t StatEvent;
  finished : bool;
  keeper : keeper_pc
}.

Definition __init__ : t :=
  {| count := zero; queue := Queue.new; finished := false; keeper := SkLoop |}.

(** [update(data)] *)
Definition update (data : StatEvent) (st : t) : t :=
  {| count := count st; queue := Queue.put data (queue st);
     finished := finished st; keeper := keeper st |}.

(** [stats()] *)
Definition stats (st : t) : counters := count st.

(** One step of the thread running [stat_keeper]. The progress line it
    prints changes no state and is left out. *)
Definition stat_keeper (st : t) : option t :=
  match keeper st with
  | SkLoop =>
      Some {| count := count st; queue := queue st; finished := finished st;
              keeper := if finished st then SkExit else SkGet |}
  | SkGet =>
      match Queue.get (queue st) with
      | Some (data, qu) =>
          Some {| count := count st; queue := qu; finished := finished st;
                  keeper := SkApply data |}
      | None =>
          Some {| count := count st; queue := queue st; finished := finished st;
                  keeper := SkLoop |}
      end
  | SkApply data =>
      Some {| count := apply_event (count st) data; queue := queue st;
              finished := finished st; keeper := SkDone |}
  | SkDone =>
      match Queue.task_done (queue st) with
      | Ok qu =>
          Some {| count := count st; queue := qu; finished := finished st;
                  keeper := SkLoop |}
      | Raise e =>
          Some {| count := count st; queue := queue st; finished := finished st;
                  keeper := SkDead e |}
      end
  | SkExit | SkDead _ => None
  end.

End IOCStat.

(** ** The pipeline: [worker], [main] and the scheduler *)

Module Pipeline.
Import Classifier.

(** Where a thread running [worker] stands. *)
Inductive worker_pc :=
  | WkLoop                          (* while not shutdown_event.is_set() *)
  | WkGet                           (* item = q.get(block=True, timeout=0.05) *)
  | WkCall (item : IndicatorRecord) (* do_work(item, ...) is entered *)
  | WkEffects (effs : list effect)  (* inside do_work; once [effs] is empty: q.task_done() *)
  | WkExit
  | WkDead (e : pyexc).

(** Where the main thread stands, from the ingestion loop on. *)
Inductive main_pc :=
  | MIngest (effs : list effect) (rows : list IndicatorRecord)
      (* for row in csv_reader: [effs] is what is left of the current
         iteration, [rows] are the rows not yet read *)
  | MJoin                                       (* q.join() *)
  | MShutdown                                   (* shutdown_event.set() *)
  | MClose (k : sink_id) (c : CSVWriter.close_pc) (* csv_k.close() *)
  | MLog                                        (* print(""); log(f"Total: ...") *)
  | MStatJoin                                   (* stat.close(): self.queue.join() *)
  | MStatFinished                               (* stat.close(): self.finished = True *)
  | MWait                                       (* while threading.active_count() > 1 *)
  | MDone                                       (* log("Finished") *)
  | MDead (e : pyexc).

Record state := {
  main : main_pc;
  q : Queue.t IndicatorRecord;
  shutdown_event : bool;
  threads : list worker_pc;
  csv_blocked : CSVWriter.t;
  csv_policy : CSVWriter.t;
  csv_error : CSVWriter.t;
  stat : IOCStat.t;
  fs : filesystem
}.

Definition set_main (v : main_pc) (s : state) : state :=
  {| main := v; q := q s; shutdown_event := shutdown_event s;
     threads := threads s; csv_blocked := csv_blocked s;
     csv_policy := csv_policy s; csv_error := csv_error s;
     stat := stat s; fs := fs s |}.
Definition set_q (v : Queue.t IndicatorRecord) (s : state) : state :=
  {| main := main s; q := v; shutdown_event := shutdown_event s;
     threads := threads s; csv_blocked := csv_blocked s;
     csv_policy := csv_policy s; csv_error := csv_error s;
     stat := stat s; fs := fs s |}.
Definition set_shutdown_event (v : bool) (s : state) : state :=
  {| main := main s; q := q s; shutdown_event := v;
     threads := threads s; csv_blocked := csv_blocked s;
     csv_policy := csv_policy s; csv_error := csv_error s;
     stat := stat s; fs := fs s |}.
Definition set_threads (v : list worker_pc) (s : state) : state :=
  {| main := main s; q := q s; shutdown_event := shutdown_event s;
     threads := v; csv_blocked := csv_blocked s;
     csv_policy := csv_policy s; csv_error := csv_error s;
     stat := stat s; fs := fs s |}.
Definition set_stat (v : IOCStat.t) (s : state) : state :=
  {| main := main s; q := q s; shutdown_event := shutdown_event s;
     threads := threads s; csv_blocked := csv_blocked s;
     csv_policy := csv_policy s; csv_error := csv_error s;
     stat := v; fs := fs s |}.
Definition set_fs (v : filesystem) (s : state) : state :=
  {| main := main s; q := q s; shutdown_event := shutdown_event s;
     threads := threads s; csv_blocked := csv_blocked s;
     csv_policy := csv_policy s; csv_error := csv_error s;
     stat := stat s; fs := v |}.

Definition sink (k : sink_id) (s : state) : CSVWriter.t :=
  match k with
  | Blocked => csv_blocked s
  | Policy => csv_policy s
  | Error => csv_error s
  end.

Definition set_sink (k : sink_id) (v : CSVWriter.t) (s : state) : state :=
  {| main := main s; q := q s; shutdown_event := shutdown_event s;
     threads := threads s;
     csv_blocked := match k with Blocked => v | _ => csv_blocked s end;
     csv_policy := match k with Policy => v | _ => csv_policy s end;
     csv_error := match k with Error => v | _ => csv_error s end;
     stat := stat s; fs := fs s |}.

(** One call on a shared object. *)
Definition perform (e : effect) (s : state) : state :=
  match e with
  | Log _ _ => s
  | StatUpdate data => set_stat (IOCStat.update data (stat s)) s
  | SinkWrite k item => set_sink k (CSVWriter.write item (sink k s)) s
  | QPut item => set_q (Queue.put item (q s)) s
  end.

(** [row['ThreatType'] in SUPPORTED_THREAT_TYPES] *)
Definition supported (v : pyval) : bool :=
  match v with
  | VStr s => py_in s SUPPORTED_THREAT_TYPES
  | VInt _ => false
  end.

(** One iteration of the ingestion loop of [main]. *)
Definition ingest_row (row : IndicatorRecord) : result (list effect) :=
  match row !! "ThreatType" with
  | None => Raise (KeyError "ThreatType")
  | Some v =>
      if supported v then Ok [QPut row]
      else Ok [SinkWrite Error row; StatUpdate {| type := "error" |}]
  end.

(** The whole loop [for row in csv_reader]. *)
Fixpoint ingest (rows : list IndicatorRecord) : result (list effect) :=
  match rows with
  | [] => Ok []
  | row :: rows =>
      effs ← ingest_row row;
      more ← ingest rows;
      Ok (effs ++ more)
  end.

(** One step of worker thread [i]; [net] is how the network answers at
    that moment. *)
Definition worker (net : string → http_outcome) (i : nat) (s : state)
    : option state :=
  w ← threads s !! i;
  let goto (w' : worker_pc) (s' : state) := set_threads (<[i := w']> (threads s)) s' in
  match w with
  | WkLoop => Some (goto (if shutdown_event s then WkExit else WkGet) s)
  | WkGet =>
      match Queue.get (q s) with
      | Some (item, qu) => Some (goto (WkCall item) (set_q qu s))
      | None => Some (goto WkLoop s)
      end
  | WkCall item =>
      match Worker.do_work net item with
      | Ok (_, effs) => Some (goto (WkEffects effs) s)
      | Raise e => Some (goto (WkDead e) s)
      end
  | WkEffects (e :: effs) => Some (goto (WkEffects effs) (perform e s))
  | WkEffects [] =>
      match Queue.task_done (q s) with
      | Ok qu => Some (goto WkLoop (set_q qu s))
      | Raise e => Some (goto (WkDead e) s)
      end
  | WkExit | WkDead _ => None
  end.

Definition worker_ended (w : worker_pc) : bool :=
  match w with WkExit | WkDead _ => true | _ => false end.

Definition writer_ended (w : CSVWriter.t) : bool :=
  match CSVWriter.writer w with
  | CSVWriter.WrExit | CSVWriter.WrDead _ => true
  | _ => false
  end.

Definition keeper_ended (st : IOCStat.t) : bool :=
  match IOCStat.keeper st with
  | IOCStat.SkExit | IOCStat.SkDead _ => true
  | _ => false
  end.

(** [threading.active_count() > 1] is false. *)
Definition only_main_alive (s : state) : bool :=
  forallb worker_ended (threads s) && writer_ended (csv_blocked s) &&
  writer_ended (csv_policy s) && writer_ended (csv_error s) &&
  keeper_ended (stat s).

(** What [main] does once [csv_k.close()] has returned. *)
Definition after_close (k : sink_id) : main_pc :=
  match k with
  | Blocked => MClose Policy CSVWriter.CJoin
  | Policy => MClose Error CSVWriter.CJoin
  | Error => MLog
  end.

(** One step of the main thread; [None] when it is blocked or has ended. *)
Definition main_step (s : state) : option state :=
  match main s with
  | MIngest (e :: effs) rows => Some (set_main (MIngest effs rows) (perform e s))
  | MIngest [] (row :: rows) =>
      match ingest_row row with
      | Ok effs => Some (set_main (MIngest effs rows) s)
      | Raise e => Some (set_main (MDead e) s)
      end
  | MIngest [] [] => Some (set_main MJoin s)
  | MJoin =>
      if Queue.all_tasks_done (q s) then Some (set_main MShutdown s) else None
  | MShutdown =>
      Some (set_main (MClose Blocked CSVWriter.CJoin) (set_shutdown_event true s))
  | MClose k c =>
      '(w, c') ← CSVWriter.close c (sink k s);
      Some (set_main (match c' with
                      | Some c' => MClose k c'
                      | None => after_close k
                      end) (set_sink k w s))
  | MLog => Some (set_main MStatJoin s)
  | MStatJoin =>
      if Queue.all_tasks_done (IOCStat.queue (stat s))
      then Some (set_main MStatFinished s) else None
  | MStatFinished =>
      Some (set_main MWait
              (set_stat {| IOCStat.count := IOCStat.count (stat s);
                           IOCStat.queue := IOCStat.queue (stat s);
                           IOCStat.finished := true;
                           IOCStat.keeper := IOCStat.keeper (stat s) |} s))
  | MWait => if only_main_alive s then Some (set_main MDone s) else None
  | MDone | MDead _ => None
  end.

(** The scheduler picks which thread takes the next step. *)
Inductive thread :=
  | TMain
  | TWorker (i : nat) (net : string → http_outcome)
  | TWriter (k : sink_id)
  | TStat.

Definition step (t : thread) (s : state) : option state :=
  match t with
  | TMain => main_step s
  | TWorker i net => worker net i s
  | TWriter k =>
      '(w, fs') ← CSVWriter.internal_writer (sink k s) (fs s);
      Some (set_fs fs' (set_sink k w s))
  | TStat =>
      st ← IOCStat.stat_keeper (stat s);
      Some (set_stat st s)
  end.

Fixpoint run (sched : list thread) (s : state) : option state :=
  match sched with
  | [] => Some s
  | t :: sched => s' ← step t s; run sched s'
  end.

(** *** Start-up: lines 369 to 409 of [main] *)

(** [path.endswith('/')] *)
Fixpoint endswith_sep (path : string) : bool :=
  match path with
  | EmptyString => false
  | String _ EmptyString => String.eqb path "/"
  | String _ rest => endswith_sep rest
  end.

(** [os.path.join(a, b)] of [posixpath]: an absolute [b] replaces [a], and
    a separator is put in between unless [a] is empty or ends with one. *)
Definition os_path_join (a b : string) : string :=
  if String.prefix "/" b then b
  else if String.eqb a "" || endswith_sep a then a +:+ b
  else a +:+ "/" +:+ b.

(** [os.path.join(outpath, ts + role + '_' + os.path.basename(fname))];
    [base] is the base name of the input file. *)
Definition outputfile (outpath ts role base : string) : string :=
  os_path_join outpath (ts +:+ role +:+ "_" +:+ base).

(** The parsed input file: its header line and its rows. *)
Record csv_file := { header : list string; rows : list IndicatorRecord }.

(** The keys of [fieldnames] after
    [fieldnames.update({'BC_RiskLevel': '', 'BC_Category': ''})]. *)
Definition add_key (key : string) (keys : list string) : list string :=
  if py_in key keys then keys else keys ++ [key].

(** The state when the ingestion loop is reached. With no row in the
    input, [fieldnames] is never assigned and [main] raises. *)
Definition startup (outpath ts base : string) (input : csv_file)
    (num_worker_threads : nat) (fs0 : filesystem) : result state :=
  fieldnames ←
    match rows input with
    | [] => Raise (UnboundLocalError "fieldnames")
    | _ :: _ => Ok (add_key "BC_Category" (add_key "BC_RiskLevel" (header input)))
    end;
  let '(csv_blocked, fs1) :=
    CSVWriter.__init__ (outputfile outpath ts "_blocked" base) fieldnames fs0 in
  let '(csv_policy, fs2) :=
    CSVWriter.__init__ (outputfile outpath ts "_policy" base) fieldnames fs1 in
  let '(csv_error, fs3) :=
    CSVWriter.__init__ (outputfile outpath ts "_error" base) fieldnames fs2 in
  Ok {| main := MIngest [] (rows input);
        q := Queue.new;
        shutdown_event := false;
        threads := replicate num_worker_threads WkLoop;
        csv_blocked := csv_blocked;
        csv_policy := csv_policy;
        csv_error := csv_error;
        stat := IOCStat.__init__;
        fs := fs3 |}.

(** The states a run of [rlcheckmt.py] can be in. *)
Definition reachable (outpath ts base : string) (input : csv_file)
    (num_worker_threads : nat) (fs0 : filesystem) (s : state) : Prop :=
  ∃ s0 sched,
    startup outpath ts base input num_worker_threads fs0 = Ok s0 ∧
    run sched s0 = Some s.

End Pipeline.

(** ** The single-threaded script: [rlcheck.py] *)

Module Legacy.
Import Classifier.

(** The dict [ret] of [rlcheck.py]: it starts empty, so every key is
    optional. The keys [blocked_by_cat] and [blocked_by_rl], which nothing
    reads, are left out. *)
Record ret_t := {
  error : option Z;
  blocked : option Z;
  risklevel : option Z;
  category : list Z
}.

(** [ret[key]] *)
Definition getitem (key : string) (v : option Z) : result Z :=
  match v with
  | Some n => Ok n
  | None => Raise (KeyError key)
  end.

Definition categories_step (ret : ret_t) (cat : category_t) : ret_t :=
  {| error := error ret;
     blocked := if py_in (id cat) BLOCKED_CATEGORY_IDS then Some 1 else blocked ret;
     risklevel := risklevel ret;
     category := category ret ++ [id cat] |}.

Definition on_ok (data : json_t) : ret_t :=
  let ret := {| error := Some 0; blocked := Some 0; risklevel := None;
                category := [] |} in
  let ret :=
    match categorization data with
    | Some c =>
        match categories c with
        | Some cats => foldl categories_step ret cats
        | None => ret
        end
    | None => ret
    end in
  match threatRiskLevel data with
  | Some t =>
      match level t with
      | Some lvl =>
          {| error := error ret;
             blocked := if MIN_BLOCKED_RISK_LEVEL <=? lvl then Some 1 else blocked ret;
             risklevel := Some lvl;
             category := category ret |}
      | None => ret
      end
  | None => ret
  end.

(** [rlcheck(ioc)] of [rlcheck.py]: the request is not guarded at all. *)
Definition rlcheck (requests_get : string → http_outcome) (ioc : string)
    : result ret_t :=
  match requests_get (tex_api_url +:+ ioc) with
  | Failed e => Raise e
  | Undecodable e =>
      (* status 200: [data = response.json()] raises *)
      Raise e
  | Responded response =>
      let ret := {| error := None; blocked := None; risklevel := None;
                    category := [] |} in
      let with_error (n : Z) :=
        {| error := Some n; blocked := None; risklevel := None; category := [] |} in
      if status_code response =? 200 then Ok (on_ok (json response))
      else if status_code response =? 400 then Ok (with_error 400)
      else if status_code response =? 401 then Ok (with_error 401)
      else if status_code response =? 429 then Ok (with_error 429)
      else Ok ret
  end.

(** The local variables of [main] that the loop changes, and the files. *)
Record locals := {
  line_count : Z;
  blocked_count : Z;
  policy_count : Z;
  error_count : Z;
  fs : filesystem
}.

Definition append_line (path : string) (l : line) (fs : filesystem) : filesystem :=
  alter (fun ls => ls ++ [l]) path fs.

Section Main.
Variable requests_get : string → http_outcome.
(** [outputfile_blocked], [outputfile_policy], [outputfile_error] *)
Variables outputfile_blocked outputfile_policy outputfile_error : string.
(** The header line of the input file. *)
Variable header : list string.

(** The body of [for row in csv_reader]. *)
Definition loop_body (st : locals) (row : IndicatorRecord) : result locals :=
  let st :=
    if line_count st =? 0 then
      {| line_count := line_count st + 1;
         blocked_count := blocked_count st;
         policy_count := policy_count st;
         error_count := error_count st;
         fs := append_line outputfile_error (Header header)
                 (append_line outputfile_policy (Header header)
                    (append_line outputfile_blocked (Header header) (fs st))) |}
    else st in
  match row !! "ThreatType" with
  | None => Raise (KeyError "ThreatType")
  | Some v =>
      if Pipeline.supported v then
        ioc ← getitem_str row "Indicator";
        ret ← rlcheck requests_get ioc;
        err ← getitem "error" (error ret);
        if err =? 0 then
          b ← getitem "blocked" (blocked ret);
          if b =? 1 then
            _ ← getitem "risklevel" (risklevel ret);
            Ok {| line_count := line_count st;
                  blocked_count := blocked_count st + 1;
                  policy_count := policy_count st;
                  error_count := error_count st;
                  fs := append_line outputfile_blocked (Row row) (fs st) |}
          else if b =? 0 then
            _ ← getitem "risklevel" (risklevel ret);
            Ok {| line_count := line_count st;
                  blocked_count := blocked_count st;
                  policy_count := policy_count st + 1;
                  error_count := error_count st;
                  fs := append_line outputfile_policy (Row row) (fs st) |}
          else Ok st
        else
          Ok {| line_count := line_count st;
                blocked_count := blocked_count st;
                policy_count := policy_count st;
                error_count := error_count st + 1;
                fs := append_line outputfile_error (Row row) (fs st) |}
      else Ok st
  end.

Fixpoint loop (st : locals) (rows : list IndicatorRecord) : result locals :=
  match rows with
  | [] => Ok st
  | row :: rows => st' ← loop_body st row; loop st' rows
  end.

(** [os.remove(path)] when [count == 0] *)
Definition remove_if_zero (count : Z) (path : string) (fs : filesystem)
    : filesystem :=
  if count =? 0 then delete path fs else fs.

(** [main], from the [with open(...)] block to the three [os.remove]:
    the files that exist when it returns. *)
Definition main (rows : list IndicatorRecord) (fs0 : filesystem)
    : result filesystem :=
  let opened :=
    <[outputfile_error := []]>
      (<[outputfile_policy := []]> (<[outputfile_blocked := []]> fs0)) in
  st ← loop {| line_count := 0; blocked_count := 0; policy_count := 0;
               error_count := 0; fs := opened |} rows;
  Ok (remove_if_zero (error_count st) outputfile_error
        (remove_if_zero (policy_count st) outputfile_policy
           (remove_if_zero (blocked_count st) outputfile_blocked (fs st)))).

End Main.

End Legacy.

(** * Properties *)

(** ** The classifier *)

Section ClassifierFacts.
Import Classifier.

(** The dict [ret] as [rlcheck] initialises it. *)
Definition fresh_ret : ClassificationResult :=
  {| error := ErrCode 0; blocked := 0; risklevel := 0; category := [];
     blocked_by_cat := None; blocked_by_rl := None |}.

(** What [rlcheck] makes of a response it did obtain. *)
Definition interpret (r : response_t) : ClassificationResult :=
  if status_code r =? 200 then on_ok (json r) fresh_ret
  else if status_code r =? 400 then set_error (ErrCode 400) fresh_ret
  else if status_code r =? 401 then set_error (ErrCode 401) fresh_ret
  else if status_code r =? 429 then set_error (ErrCode 429) fresh_ret
  else fresh_ret.

Lemma rlcheck_responded net ioc r :
  net (tex_api_url +:+ ioc) = Responded r →
  rlcheck net ioc = Ok (interpret r).
Proof.
  intros Hnet. unfold rlcheck, interpret, fresh_ret. rewrite Hnet. simpl.
  repeat case_match; reflexivity.
Qed.

(** The loop over the categories leaves [error], [risklevel] and
    [blocked_by_rl] alone. *)
Lemma categories_loop_frame cats ret :
  error (foldl categories_step ret cats) = error ret ∧
  risklevel (foldl categories_step ret cats) = risklevel ret ∧
  blocked_by_rl (foldl categories_step ret cats) = blocked_by_rl ret.
Proof.
  revert ret. induction cats as [|cat cats IH]; intros ret; simpl; [done|].
  destruct (IH (categories_step ret cat)) as (He & Hr & Hb).
  rewrite He, Hr, Hb. unfold categories_step.
  destruct (py_in (id cat) BLOCKED_CATEGORY_IDS); done.
Qed.

(** After the categories, before the risk level is looked at. *)
Definition after_categories (data : json_t) : ClassificationResult :=
  let ret := set_category [] (set_blocked 0 (set_error (ErrCode 0) fresh_ret)) in
  match categorization data with
  | Some c =>
      match categories c with
      | Some cats => foldl categories_step ret cats
      | None => ret
      end
  | None => ret
  end.

Lemma after_categories_frame data :
  error (after_categories data) = ErrCode 0 ∧
  risklevel (after_categories data) = 0 ∧
  blocked_by_rl (after_categories data) = None.
Proof.
  unfold after_categories.
  destruct (categorization data) as [c|]; [|done].
  destruct (categories c) as [cats|]; [|done].
  apply categories_loop_frame.
Qed.

Lemma on_ok_error data : error (on_ok data fresh_ret) = ErrCode 0.
Proof.
  destruct (after_categories_frame data) as (He & _ & _).
  unfold on_ok. fold (after_categories data).
  destruct (threatRiskLevel data) as [t|]; [|done].
  destruct (level t) as [lvl|]; [|done].
  destruct (MIN_BLOCKED_RISK_LEVEL <=? lvl); done.
Qed.

(** A response is never turned into an exception object: [error] is one of
    the four codes. *)
Lemma interpret_error r :
  error (interpret r) ∈ [ErrCode 0; ErrCode 400; ErrCode 401; ErrCode 429].
Proof.
  unfold interpret. repeat case_match; simpl; rewrite ?on_ok_error; set_solver.
Qed.

(** The network that fails every request with a transport exception. *)
Definition unreachable_network (msg : string) : string → http_outcome :=
  fun _ => Failed (RequestException msg).

(** C2: when [requests.get] raises a transport exception, the [except]
    clause of [rlcheck] does store it in [ret['error']], but the next
    statement reads the unassigned [response]: [rlcheck] returns no result,
    it ends with [UnboundLocalError]. *)
Theorem rlcheck_transport_fault_escapes (msg ioc : string) :
  rlcheck (unreachable_network msg) ioc = Raise (UnboundLocalError "response").
Proof. reflexivity. Qed.

(** The result of a 200 answer that carries a risk level: the level is
    stored, and it alone decides [blocked_by_rl]. *)
Lemma on_ok_with_level data t lvl :
  threatRiskLevel data = Some t → level t = Some lvl →
  risklevel (on_ok data fresh_ret) = lvl ∧
  blocked_by_rl (on_ok data fresh_ret) =
    (if MIN_BLOCKED_RISK_LEVEL <=? lvl then Some 1 else None) ∧
  (MIN_BLOCKED_RISK_LEVEL ≤ lvl → blocked (on_ok data fresh_ret) = 1).
Proof.
  intros Ht Hl.
  destruct (after_categories_frame data) as (_ & _ & Hrl).
  unfold on_ok. fold (after_categories data). rewrite Ht, Hl.
  destruct (MIN_BLOCKED_RISK_LEVEL <=? lvl) eqn:Hle; simpl.
  - done.
  - apply Z.leb_gt in Hle. split; [done|]. split; [done | lia].
Qed.

(** C6: a 200 answer with risk level [lvl] is marked blocked by risk level
    exactly when [lvl >= MIN_BLOCKED_RISK_LEVEL], the threshold is 8, and a
    level of exactly 8 is blocked. *)
Theorem blocked_by_risk_level_iff net ioc r t lvl :
  net (tex_api_url +:+ ioc) = Responded r →
  status_code r = 200 →
  threatRiskLevel (json r) = Some t → level t = Some lvl →
  ∃ ret, rlcheck net ioc = Ok ret ∧
    MIN_BLOCKED_RISK_LEVEL = 8 ∧
    (blocked_by_rl ret = Some 1 ↔ MIN_BLOCKED_RISK_LEVEL ≤ lvl) ∧
    (MIN_BLOCKED_RISK_LEVEL ≤ lvl → blocked ret = 1) ∧
    (lvl = 8 → blocked_by_rl ret = Some 1 ∧ blocked ret = 1).
Proof.
  intros Hnet Hst Ht Hl. exists (interpret r).
  split; [by apply rlcheck_responded|].
  unfold interpret. rewrite Hst. simpl.
  destruct (on_ok_with_level (json r) t lvl Ht Hl) as (_ & Hrl & Hb).
  rewrite Hrl. split; [done|].
  assert (Hiff : (if MIN_BLOCKED_RISK_LEVEL <=? lvl then Some 1 else None)
                 = Some 1 ↔ MIN_BLOCKED_RISK_LEVEL ≤ lvl).
  { destruct (MIN_BLOCKED_RISK_LEVEL <=? lvl) eqn:Hle.
    - apply Z.leb_le in Hle. done.
    - apply Z.leb_gt in Hle. split; [done | lia]. }
  split; [done|]. split; [done|].
  intros ->. split; [by apply Hiff | by apply Hb].
Qed.

(** C9: a 200 answer without a [threatRiskLevel] field gives
    [risklevel = 0]. *)
Theorem risklevel_defaults_to_zero net ioc r :
  net (tex_api_url +:+ ioc) = Responded r →
  status_code r = 200 →
  threatRiskLevel (json r) = None →
  ∃ ret, rlcheck net ioc = Ok ret ∧ risklevel ret = 0.
Proof.
  intros Hnet Hst Hno. exists (interpret r).
  split; [by apply rlcheck_responded|].
  unfold interpret. rewrite Hst. simpl.
  destruct (after_categories_frame (json r)) as (_ & Hr & _).
  unfold on_ok. fold (after_categories (json r)). by rewrite Hno.
Qed.

(** A status code that [rlcheck] has no branch for. *)
Definition unhandled_status (code : Z) : Prop :=
  code ∉ [200; 400; 401; 429].

Lemma interpret_unhandled r :
  unhandled_status (status_code r) → interpret r = fresh_ret.
Proof.
  unfold unhandled_status, interpret. intros Hcode.
  repeat case_match; try reflexivity; exfalso; apply Hcode;
    match goal with H : (_ =? _) = true |- _ => apply Z.eqb_eq in H; rewrite H end;
    set_solver.
Qed.

End ClassifierFacts.

(** ** The worker *)

Section WorkerFacts.
Import Classifier Worker.

(** The effects [effs] hand [item] to sink [k] and to no other sink, and
    report one event with tag [tag]. *)
Definition routed_to (k : sink_id) (tag : string) (item : IndicatorRecord)
    (effs : list effect) : Prop :=
  sink_writes k effs = [item] ∧
  (∀ k', k' ≠ k → sink_writes k' effs = []) ∧
  stat_updates effs = [{| type := tag |}] ∧
  queue_puts effs = [].

(** The sink and the tag that the three-way test of [do_work] selects. *)
Definition verdict (ret : ClassificationResult) : sink_id * string :=
  if err_nonzero (error ret) then (Error, "error")
  else if blocked ret =? 1 then (Blocked, "blocked")
  else (Policy, "policy").

(** The record as [do_work] hands it to the sink. *)
Definition outgoing (ret : ClassificationResult) (item : IndicatorRecord)
    : IndicatorRecord :=
  if err_nonzero (error ret) then item
  else item_update (risklevel ret) (join_categories (category ret)) item.

(** Whenever [rlcheck] returns a result, [do_work] routes the record to
    the one sink of the verdict, with the one matching event. *)
Lemma do_work_routes_once net item ioc ret :
  item !! "Indicator" = Some (VStr ioc) →
  rlcheck net ioc = Ok ret →
  ∃ effs, do_work net item = Ok (outgoing ret item, effs) ∧
          routed_to (verdict ret).1 (verdict ret).2 (outgoing ret item) effs.
Proof.
  intros Hioc Hret. unfold do_work, getitem_str, verdict, outgoing.
  rewrite Hioc. simpl. rewrite Hret. simpl.
  destruct (err_nonzero (error ret)); [|destruct (blocked ret =? 1)];
    eexists; (split; [reflexivity|]);
    (split; [reflexivity|]); (split; [|done]);
    intros k' Hk; destruct k'; done.
Qed.

(** C1: not so when the request itself fails: [rlcheck] raises inside
    [do_work], and [do_work] ends with that exception before any sink or
    the aggregator is called. The record reaches no sink. *)
Theorem do_work_transport_fault_routes_nowhere (msg ioc : string)
    (item : IndicatorRecord) :
  do_work (unreachable_network msg) (<["Indicator" := VStr ioc]> item)
  = Raise (UnboundLocalError "response").
Proof.
  unfold do_work, getitem_str. by rewrite lookup_insert_eq.
Qed.

(** C8: a record processed without classifier error keeps every field
    other than [BC_RiskLevel] and [BC_Category]; its keys are the original
    ones and these two; the two hold the risk level and the joined
    category names; and it is this record that reaches the sink. *)
Theorem do_work_frame net item ioc ret :
  item !! "Indicator" = Some (VStr ioc) →
  rlcheck net ioc = Ok ret →
  err_nonzero (error ret) = false →
  ∃ item' effs k,
    do_work net item = Ok (item', effs) ∧
    sink_writes k effs = [item'] ∧
    (∀ key, key ≠ "BC_RiskLevel" → key ≠ "BC_Category" →
            item' !! key = item !! key) ∧
    dom item' = dom item ∪ ({["BC_RiskLevel"; "BC_Category"]} : gset string) ∧
    item' !! "BC_RiskLevel" = Some (VInt (risklevel ret)) ∧
    item' !! "BC_Category" = Some (VStr (join_categories (category ret))).
Proof.
  intros Hioc Hret Herr.
  destruct (do_work_routes_once net item ioc ret Hioc Hret) as (effs & Hdo & Hw & _).
  exists (outgoing ret item), effs, (verdict ret).1.
  split; [done|]. split; [done|].
  unfold outgoing, item_update. rewrite Herr.
  split; [|split; [|split]].
  - intros key H1 H2. by rewrite !lookup_insert_ne.
  - rewrite !dom_insert_L. apply set_eq. intros key.
    rewrite !elem_of_union, !elem_of_singleton. tauto.
  - by rewrite lookup_insert_ne, lookup_insert_eq.
  - by rewrite lookup_insert_eq.
Qed.

(** C10: an answer with a status code other than 200, 400, 401 and 429 is
    a success with nothing known: error 0, not blocked, risk level 0, no
    category. [do_work] sends the record to the policy sink with a
    [policy] event. *)
Theorem unhandled_status_goes_to_policy net item ioc r :
  item !! "Indicator" = Some (VStr ioc) →
  net (tex_api_url +:+ ioc) = Responded r →
  unhandled_status (status_code r) →
  rlcheck net ioc = Ok {| error := ErrCode 0; blocked := 0; risklevel := 0;
                          category := []; blocked_by_cat := None;
                          blocked_by_rl := None |} ∧
  ∃ effs, do_work net item = Ok (item_update 0 "" item, effs) ∧
          routed_to Policy "policy" (item_update 0 "" item) effs.
Proof.
  intros Hioc Hnet Hcode.
  pose proof (rlcheck_responded net ioc r Hnet) as Hret.
  rewrite (interpret_unhandled r Hcode) in Hret.
  split; [exact Hret|].
  exact (do_work_routes_once net item ioc fresh_ret Hioc Hret).
Qed.

End WorkerFacts.

(** ** The aggregator *)

Section AggregatorFacts.
Import Aggregator.

Lemma apply_event_balanced c data :
  valid_tag data → balanced c → balanced (apply_event c data).
Proof.
  unfold valid_tag, balanced, apply_event. intros Htag Hc.
  repeat (apply elem_of_cons in Htag as [-> | Htag]); simpl; try lia.
  by apply elem_of_nil in Htag.
Qed.

Lemma apply_event_le c data : counters_le c (apply_event c data).
Proof.
  unfold counters_le, apply_event.
  repeat case_match; simpl; lia.
Qed.

Lemma counters_le_refl c : counters_le c c.
Proof. unfold counters_le. lia. Qed.

Lemma counters_le_trans c1 c2 c3 :
  counters_le c1 c2 → counters_le c2 c3 → counters_le c1 c3.
Proof. unfold counters_le. lia. Qed.

Lemma events_balanced evs c :
  Forall valid_tag evs → balanced c → balanced (foldl apply_event c evs).
Proof.
  intros Hevs. revert c. induction Hevs as [|data evs Hd _ IH]; intros c Hc.
  - done.
  - simpl. apply IH. by apply apply_event_balanced.
Qed.

Lemma events_le evs c : counters_le c (foldl apply_event c evs).
Proof.
  revert c. induction evs as [|data evs IH]; intros c; simpl.
  - apply counters_le_refl.
  - eapply counters_le_trans; [apply apply_event_le | apply IH].
Qed.

(** C3: whatever events with tags in {blocked, policy, error} the
    aggregator has applied so far ([evs1]) and goes on to apply ([evs2]),
    [total == blocked + policy + error] holds at both moments, and no
    counter is lower at the later one. *)
Theorem stat_keeper_total_is_sum (evs1 evs2 : list StatEvent) :
  Forall valid_tag (evs1 ++ evs2) →
  balanced (stat_keeper evs1) ∧
  balanced (stat_keeper (evs1 ++ evs2)) ∧
  counters_le (stat_keeper evs1) (stat_keeper (evs1 ++ evs2)).
Proof.
  intros Hall. pose proof Hall as Hsplit.
  apply Forall_app in Hsplit as [H1 H2].
  assert (balanced zero) as Hz by reflexivity.
  unfold stat_keeper. split; [|split].
  - by apply events_balanced.
  - by apply events_balanced.
  - rewrite foldl_app. apply events_le.
Qed.

End AggregatorFacts.

(** ** Ingestion *)

Section IngestionFacts.
Import Pipeline.

(** [row['ThreatType'] in SUPPORTED_THREAT_TYPES] for a row that has the
    column. *)
Definition supported_row (row : IndicatorRecord) : bool :=
  match row !! "ThreatType" with
  | Some v => supported v
  | None => false
  end.

Lemma supported_row_spec row :
  supported_row row = true ↔
  ∃ s, row !! "ThreatType" = Some (VStr s) ∧ s ∈ ["IP Address"; "Domain"; "URL"].
Proof.
  unfold supported_row, supported, py_in, SUPPORTED_THREAT_TYPES.
  destruct (row !! "ThreatType") as [[s|n]|].
  - rewrite bool_decide_eq_true. split; [eauto|]. by intros (? & [= <-] & ?).
  - split; [done|]. by intros (? & [=] & _).
  - split; [done|]. by intros (? & [=] & _).
Qed.

Lemma queue_puts_app effs1 effs2 :
  queue_puts (effs1 ++ effs2) = queue_puts effs1 ++ queue_puts effs2.
Proof. apply omap_app. Qed.

Lemma sink_writes_app k effs1 effs2 :
  sink_writes k (effs1 ++ effs2) = sink_writes k effs1 ++ sink_writes k effs2.
Proof. apply omap_app. Qed.

Lemma stat_updates_app effs1 effs2 :
  stat_updates (effs1 ++ effs2) = stat_updates effs1 ++ stat_updates effs2.
Proof. apply omap_app. Qed.

(** The test of the ingestion loop, on the value of the column. *)
Lemma supported_spec (v : option pyval) :
  (∃ w, v = Some w ∧ supported w = true) ↔
  v ∈ [Some (VStr "IP Address"); Some (VStr "Domain"); Some (VStr "URL")].
Proof.
  rewrite !elem_of_cons, elem_of_nil. split.
  - intros (w & -> & Hw). destruct w as [t|n]; [|done].
    unfold supported, py_in, SUPPORTED_THREAT_TYPES in Hw.
    apply bool_decide_eq_true in Hw.
    rewrite !elem_of_cons, elem_of_nil in Hw.
    destruct Hw as [->|[->|[->|[]]]]; auto.
  - intros [->|[->|[->|[]]]]; eexists; (split; [reflexivity|]);
      apply (bool_decide_unpack _); exact I.
Qed.

(** C5: the ingestion loop puts the rows whose [ThreatType] is
    'IP Address', 'Domain' or 'URL' on the work queue, in the order of the
    input, and nothing else; every other row goes to the error sink, with
    one [error] event each, and the loop writes to no other sink. The
    classifier is reached only from the work queue. *)
Theorem ingest_partitions (rows : list IndicatorRecord) :
  Forall (fun row => is_Some (row !! "ThreatType")) rows →
  ∃ effs, ingest rows = Ok effs ∧
    queue_puts effs =
      filter (fun row => row !! "ThreatType" ∈
                [Some (VStr "IP Address"); Some (VStr "Domain"); Some (VStr "URL")])
        rows ∧
    sink_writes Error effs =
      filter (fun row => row !! "ThreatType" ∉
                [Some (VStr "IP Address"); Some (VStr "Domain"); Some (VStr "URL")])
        rows ∧
    stat_updates effs =
      (fun _ => {| type := "error" |}) <$>
        filter (fun row => row !! "ThreatType" ∉
                  [Some (VStr "IP Address"); Some (VStr "Domain"); Some (VStr "URL")])
          rows ∧
    sink_writes Blocked effs = [] ∧
    sink_writes Policy effs = [].
Proof.
  induction 1 as [|row rows [v Hv] _ (more & Hmore & Hq & He & Hs & Hb & Hp)].
  - by exists [].
  - simpl. unfold ingest_row. rewrite Hv, Hmore. simpl.
    pose proof (supported_spec (row !! "ThreatType")) as Hspec.
    destruct (supported v) eqn:Hsup.
    + assert (row !! "ThreatType" ∈
                [Some (VStr "IP Address"); Some (VStr "Domain"); Some (VStr "URL")])
        as Hin by (apply Hspec; eauto).
      exists ([QPut row] ++ more). split; [reflexivity|].
      rewrite queue_puts_app, !sink_writes_app, stat_updates_app,
        Hq, He, Hs, Hb, Hp, !filter_cons.
      rewrite decide_True by done. rewrite decide_False by (intros Hn; by apply Hn).
      repeat split; reflexivity.
    + assert (row !! "ThreatType" ∉
                [Some (VStr "IP Address"); Some (VStr "Domain"); Some (VStr "URL")])
        as Hout.
      { intros (w & Hw & Hsup')%Hspec. rewrite Hv in Hw. injection Hw as <-.
        congruence. }
      exists ([SinkWrite Error row; StatUpdate {| type := "error" |}] ++ more).
      split; [reflexivity|].
      rewrite queue_puts_app, !sink_writes_app, stat_updates_app,
        Hq, He, Hs, Hb, Hp, !filter_cons.
      rewrite decide_False by done. rewrite decide_True by done.
      repeat split; reflexivity.
Qed.

End IngestionFacts.

(** ** The pipeline: shutdown order *)

Section PipelineFacts.
Import Pipeline.
Local Open Scope nat_scope.

(** A worker that took a record from [q] and has not acknowledged it. A
    worker that died did so inside [do_work], with its record in hand. *)
Definition holding (w : worker_pc) : nat :=
  match w with
  | WkCall _ | WkEffects _ | WkDead _ => 1
  | WkLoop | WkGet | WkExit => 0
  end.

Definition in_hand_count (ws : list worker_pc) : nat :=
  sum_list (holding <$> ws).

(** The work queue is drained: nothing waits in it, every record put on
    it was acknowledged, and no worker has one in hand. *)
Definition drained (s : state) : Prop :=
  Queue.items (q s) = [] ∧
  Queue.unfinished_tasks (q s) = 0 ∧
  Forall (fun w => holding w = 0) (threads s).

(** [main] is past [q.join()]. *)
Definition after_join (m : main_pc) : bool :=
  match m with
  | MIngest _ _ | MJoin | MDead _ => false
  | _ => true
  end.

(** [main] is past [shutdown_event.set()]. *)
Definition shutdown_raised (m : main_pc) : bool :=
  match m with
  | MIngest _ _ | MJoin | MShutdown | MDead _ => false
  | _ => true
  end.

(** The order in which [main] closes the sinks. *)
Definition sink_index (k : sink_id) : nat :=
  match k with Blocked => 0 | Policy => 1 | Error => 2 end.

(** [main] is past the [self.queue.join()] of [csv_k.close()]. *)
Definition join_passed (k : sink_id) (m : main_pc) : bool :=
  match m with
  | MIngest _ _ | MJoin | MShutdown | MDead _ => false
  | MClose k' c =>
      (sink_index k <? sink_index k') ||
      (bool_decide (k = k') &&
       match c with CSVWriter.CJoin => false | _ => true end)
  | MLog | MStatJoin | MStatFinished | MWait | MDone => true
  end.

(** [taken] are the records that the writer thread took and that are not
    in the file: the one it is about to write, or the one that [writerow]
    refused when the thread died. *)
Definition unwritten (w : CSVWriter.writer_pc) (taken : list IndicatorRecord)
    : Prop :=
  match w with
  | CSVWriter.WrRow data => taken = [data]
  | CSVWriter.WrDead _ => length taken = 1
  | _ => taken = []
  end.

(** The writer thread took a record and has not acknowledged it. A writer
    that died did so in [writerow], before [task_done]. *)
Definition owed (w : CSVWriter.writer_pc) : nat :=
  match w with
  | CSVWriter.WrRow _ | CSVWriter.WrDone | CSVWriter.WrDead _ => 1
  | _ => 0
  end.

(** What holds of sink [k] while the pipeline runs. *)
Record sink_inv (k : sink_id) (m : main_pc) (files : filesystem)
    (w : CSVWriter.t) : Prop := {
  sink_count :
    Queue.unfinished_tasks (CSVWriter.queue w) =
    length (Queue.items (CSVWriter.queue w)) + owed (CSVWriter.writer w);
  sink_file :
    ∃ written taken,
      files !! CSVWriter.path w =
        Some (Header (CSVWriter.fieldnames w) :: (Row <$> written)) ∧
      unwritten (CSVWriter.writer w) taken ∧
      CSVWriter.submitted w =
        written ++ taken ++ Queue.items (CSVWriter.queue w);
  sink_joined :
    join_passed k m = true → Queue.unfinished_tasks (CSVWriter.queue w) = 0;
  sink_finished : CSVWriter.finished w = true → join_passed k m = true;
  sink_closed : CSVWriter.closed w = true → join_passed k m = true
}.

(** What holds of every state the pipeline reaches. *)
Record inv (s : state) : Prop := {
  inv_q :
    Queue.unfinished_tasks (q s) =
    length (Queue.items (q s)) + in_hand_count (threads s);
  inv_join : after_join (main s) = true → Queue.unfinished_tasks (q s) = 0;
  inv_shutdown : shutdown_event s = shutdown_raised (main s);
  inv_paths :
    CSVWriter.path (csv_blocked s) ≠ CSVWriter.path (csv_policy s) ∧
    CSVWriter.path (csv_blocked s) ≠ CSVWriter.path (csv_error s) ∧
    CSVWriter.path (csv_policy s) ≠ CSVWriter.path (csv_error s);
  inv_sink : ∀ k, sink_inv k (main s) (fs s) (sink k s)
}.

Lemma in_hand_count_insert ws i w w' :
  ws !! i = Some w →
  in_hand_count (<[i := w']> ws) + holding w = in_hand_count ws + holding w'.
Proof.
  unfold in_hand_count. revert i.
  induction ws as [|x ws IH]; intros [|i] Hi; simpl in *; try done.
  - injection Hi as ->. lia.
  - specialize (IH i Hi). unfold fmap in IH. lia.
Qed.

Lemma in_hand_count_zero ws :
  in_hand_count ws = 0 → Forall (fun w => holding w = 0) ws.
Proof.
  unfold in_hand_count. induction ws as [|x ws IH]; simpl; intros H.
  - constructor.
  - unfold fmap in IH. constructor; [lia | apply IH; lia].
Qed.

Lemma join_passed_after_join k m : join_passed k m = true → after_join m = true.
Proof. by destruct m. Qed.

Lemma join_passed_shutdown_raised k m :
  join_passed k m = true → shutdown_raised m = true.
Proof. by destruct m. Qed.

(** Once the work queue is joined, it is drained. *)
Lemma inv_drained s : inv s → after_join (main s) = true → drained s.
Proof.
  intros [Hq Hj _ _ _] Hm. specialize (Hj Hm). rewrite Hj in Hq.
  split; [|split; [done|]].
  - destruct (Queue.items (q s)); [done | simpl in Hq; lia].
  - apply in_hand_count_zero. lia.
Qed.

(** *** One sink *)

Lemma sink_inv_ext k m m' files files' w :
  sink_inv k m files w →
  join_passed k m' = join_passed k m →
  files' !! CSVWriter.path w = files !! CSVWriter.path w →
  sink_inv k m' files' w.
Proof.
  intros [Hc Hf Hj Hfin Hcl] Hm Hfs.
  split; rewrite ?Hm, ?Hfs; done.
Qed.

(** [write] is harmless as long as [close] has not passed its [join]. *)
Lemma sink_inv_write k m files w data :
  sink_inv k m files w →
  join_passed k m = false →
  sink_inv k m files (CSVWriter.write data w).
Proof.
  intros [Hc (written & taken & Hfile & Htaken & Hsub) Hj Hfin Hcl] Hm.
  split; simpl; try done.
  - rewrite length_app, Hc. simpl. lia.
  - exists written, taken. split; [done|]. split; [done|].
    rewrite Hsub. by rewrite <- !(assoc_L (++)).
  - rewrite Hm. done.
Qed.

(** The steps of the writer thread. *)
Lemma sink_inv_internal_writer k m files w w' files' :
  sink_inv k m files w →
  CSVWriter.internal_writer w files = Some (w', files') →
  sink_inv k m files' w' ∧
  CSVWriter.path w' = CSVWriter.path w ∧
  ∀ p, p ≠ CSVWriter.path w → files' !! p = files !! p.
Proof.
  intros [Hc (written & taken & Hfile & Htaken & Hsub) Hj Hfin Hcl] Hstep.
  unfold CSVWriter.internal_writer in Hstep.
  destruct (CSVWriter.writer w) as [| |data| | |e] eqn:Hpc; simpl in *.
  - (* while not self.finished *)
    injection Hstep as <- <-. split; [|done].
    split; simpl; try done.
    + rewrite Hc. by destruct (CSVWriter.finished w).
    + exists written, taken. split; [done|]. by destruct (CSVWriter.finished w).
  - (* self.queue.get(True, 1) *)
    unfold Queue.get in Hstep. subst taken.
    destruct (Queue.items (CSVWriter.queue w)) as [|data rest] eqn:Hitems.
    + injection Hstep as <- <-. split; [|done].
      split; simpl; try done.
      * by rewrite Hc, Hitems.
      * exists written, []. by rewrite Hitems.
    + injection Hstep as <- <-. split; [|done].
      split; simpl; try done.
      * rewrite Hc. simpl. lia.
      * exists written, [data]. done.
  - (* self.csvwriter.writerow(data) *)
    subst taken.
    destruct (CSVWriter.wrong_fields (CSVWriter.fieldnames w) data) as [|key keys].
    + destruct (CSVWriter.closed w) eqn:Hclosed.
      * specialize (Hj (Hcl eq_refl)). rewrite Hc in Hj. simpl in Hj. lia.
      * injection Hstep as <- <-. split; [|split; [done|]].
        -- split; simpl; try done; [|by rewrite Hclosed].
           exists (written ++ [data]), []. split; [|split; [done|]].
           ++ rewrite lookup_alter_eq, Hfile. simpl.
              by rewrite fmap_app.
           ++ rewrite Hsub. by rewrite <- !(assoc_L (++)).
        -- intros p Hp. by rewrite lookup_alter_ne.
    + (* the record has a key outside the header: the thread dies *)
      injection Hstep as <- <-. split; [|done].
      split; simpl; try done.
      exists written, [data]. done.
  - (* self.queue.task_done() *)
    unfold Queue.task_done in Hstep. rewrite Hc in Hstep. subst taken.
    rewrite Nat.add_1_r in Hstep. injection Hstep as <- <-.
    split; [|done]. split; simpl; try done.
    + exists written, []. done.
    + intros Hp. specialize (Hj Hp). lia.
  - done.
  - done.
Qed.

(** The steps of [close()], taken by [main]. *)
Lemma sink_inv_close k c files w w' c' :
  sink_inv k (MClose k c) files w →
  CSVWriter.close c w = Some (w', c') →
  sink_inv k (match c' with
              | Some c' => MClose k c'
              | None => after_close k
              end) files w' ∧
  CSVWriter.path w' = CSVWriter.path w.
Proof.
  intros [Hc Hf Hj Hfin Hcl] Hstep.
  assert (Hself : ∀ c0, c0 ≠ CSVWriter.CJoin → join_passed k (MClose k c0) = true).
  { intros c0 Hc0. simpl. rewrite bool_decide_eq_true_2 by done.
    destruct c0; [done|..]; by rewrite orb_true_r. }
  assert (Hnext : join_passed k (after_close k) = true) by (by destruct k).
  destruct c; simpl in Hstep.
  - destruct (Queue.all_tasks_done (CSVWriter.queue w)) eqn:Hdone; [|done].
    injection Hstep as <- <-. split; [|done].
    apply bool_decide_eq_true in Hdone.
    split; try done; intros _; apply Hself; done.
  - injection Hstep as <- <-. split; [|done].
    specialize (Hj (Hself CSVWriter.CFinished ltac:(done))).
    split; simpl; try done; intros _; apply (Hself CSVWriter.CRelease); done.
  - injection Hstep as <- <-. split; [|done].
    specialize (Hj (Hself CSVWriter.CRelease ltac:(done))).
    split; simpl; done.
Qed.

(** *** The whole state *)

Lemma sink_set_sink_eq k w s : sink k (set_sink k w s) = w.
Proof. by destruct k. Qed.

Lemma sink_set_sink_ne k k' w s : k ≠ k' → sink k (set_sink k' w s) = sink k s.
Proof. by destruct k, k'. Qed.

Lemma inv_path_ne s k k' :
  inv s → k ≠ k' →
  CSVWriter.path (sink k s) ≠ CSVWriter.path (sink k' s).
Proof.
  intros [_ _ _ (H1 & H2 & H3) _] Hk. destruct k, k'; simpl; congruence.
Qed.

Lemma not_after_join_join_passed k m :
  after_join m = false → join_passed k m = false.
Proof. by destruct m. Qed.

(** A call on a shared object keeps the invariant while [main] has not
    passed [q.join()]. *)
Lemma inv_perform s e :
  inv s → after_join (main s) = false → inv (perform e s).
Proof.
  intros Hinv Hm. pose proof Hinv as [Hq Hj Hsh Hp Hk].
  destruct e as [err ioc|data|k item|item]; simpl.
  - done.
  - split; done.
  - split; try done; simpl.
    + destruct k; simpl; done.
    + intros k'. destruct (decide (k' = k)) as [->|Hne].
      * rewrite sink_set_sink_eq. apply sink_inv_write; [done|].
        by apply not_after_join_join_passed.
      * rewrite sink_set_sink_ne by done. apply Hk.
  - split; try done; simpl.
    + rewrite length_app, Hq. simpl. lia.
    + rewrite Hm. done.
Qed.

(** A step that leaves [main], the sinks and the files alone. *)
Lemma inv_update s s' :
  inv s →
  main s' = main s →
  shutdown_event s' = shutdown_event s →
  csv_blocked s' = csv_blocked s →
  csv_policy s' = csv_policy s →
  csv_error s' = csv_error s →
  fs s' = fs s →
  Queue.unfinished_tasks (q s') =
    length (Queue.items (q s')) + in_hand_count (threads s') →
  (after_join (main s) = true → Queue.unfinished_tasks (q s') = 0) →
  inv s'.
Proof.
  intros [Hq Hj Hsh Hp Hk] Hm Hs Hb Hpo He Hfs Hq' Hj'.
  split.
  - done.
  - by rewrite Hm.
  - by rewrite Hm, Hs.
  - by rewrite Hb, Hpo, He.
  - intros k. rewrite Hm, Hfs.
    replace (sink k s') with (sink k s) by (destruct k; simpl; congruence).
    apply Hk.
Qed.

(** [main] moves on without touching anything else. *)
Lemma inv_set_main s m' :
  inv s →
  (after_join m' = true → Queue.unfinished_tasks (q s) = 0) →
  shutdown_raised m' = shutdown_raised (main s) →
  (∀ k, join_passed k m' = join_passed k (main s)) →
  inv (set_main m' s).
Proof.
  intros [Hq Hj Hsh Hp Hk] Hj' Hsh' Hjp.
  split; simpl; try done.
  - by rewrite Hsh'.
  - intros k. eapply sink_inv_ext; [apply Hk | apply Hjp | done].
Qed.

(** A worker with a record in hand keeps [main] before its [q.join()]. *)
Lemma holding_blocks_join s i w :
  inv s → threads s !! i = Some w → holding w = 1 →
  0 < Queue.unfinished_tasks (q s) ∧ after_join (main s) = false.
Proof.
  intros [Hq Hj _ _ _] Hi Hw.
  pose proof (in_hand_count_insert (threads s) i w WkLoop Hi) as Hcount.
  rewrite Hw in Hcount. simpl in Hcount.
  assert (0 < Queue.unfinished_tasks (q s)) as Hpos by lia.
  split; [done|].
  destruct (after_join (main s)); [|done].
  specialize (Hj eq_refl). lia.
Qed.

(** *** Every step keeps the invariant *)

Lemma inv_worker net i s s' : inv s → worker net i s = Some s' → inv s'.
Proof.
  intros Hinv Hstep. pose proof Hinv as [Hq Hj Hsh Hp Hk].
  unfold worker in Hstep.
  destruct (threads s !! i) as [w|] eqn:Hi; simpl in Hstep; [|done].
  pose proof (fun w' => in_hand_count_insert (threads s) i w w' Hi) as Hcount.
  destruct w as [| |item|[|e effs]| |e]; simpl in Hstep.
  - (* while not shutdown_event.is_set() *)
    injection Hstep as <-.
    apply (inv_update s); try done; simpl.
    specialize (Hcount (if shutdown_event s then WkExit else WkGet)).
    destruct (shutdown_event s); simpl in Hcount; lia.
  - (* q.get(block=True, timeout=0.05) *)
    unfold Queue.get in Hstep.
    destruct (Queue.items (q s)) as [|item rest] eqn:Hitems.
    + injection Hstep as <-.
      apply (inv_update s); try done; simpl.
      specialize (Hcount WkLoop). rewrite Hitems. simpl in *. lia.
    + injection Hstep as <-.
      apply (inv_update s); try done; simpl.
      specialize (Hcount (WkCall item)). simpl in *. lia.
  - (* do_work(item, ...) *)
    destruct (Worker.do_work net item) as [[item' effs]|e];
      injection Hstep as <-;
      apply (inv_update s); try done; simpl.
    + specialize (Hcount (WkEffects effs)). simpl in Hcount. lia.
    + specialize (Hcount (WkDead e)). simpl in Hcount. lia.
  - (* q.task_done() *)
    destruct (holding_blocks_join s i (WkEffects []) Hinv Hi eq_refl) as [Hpos Hm].
    unfold Queue.task_done in Hstep.
    destruct (Queue.unfinished_tasks (q s)) as [|n] eqn:Hn; [lia|].
    injection Hstep as <-.
    apply (inv_update s); try done; simpl.
    + specialize (Hcount WkLoop). simpl in Hcount. lia.
    + rewrite Hm. done.
  - (* a call inside do_work *)
    destruct (holding_blocks_join s i (WkEffects (e :: effs)) Hinv Hi eq_refl)
      as [Hpos Hm].
    injection Hstep as <-.
    pose proof (inv_perform s e Hinv Hm) as Hinv'.
    assert (threads (perform e s) = threads s) as Hth by (by destruct e).
    assert (main (perform e s) = main s) as Hmain by (by destruct e).
    pose proof Hinv' as [Hq' Hj' Hsh' Hp' Hk'].
    apply (inv_update (perform e s)); try done; simpl.
    + rewrite Hq', Hth.
      specialize (Hcount (WkEffects effs)). simpl in Hcount. lia.
  - done.
  - done.
Qed.

Lemma inv_writer k s w fs' :
  inv s →
  CSVWriter.internal_writer (sink k s) (fs s) = Some (w, fs') →
  inv (set_fs fs' (set_sink k w s)).
Proof.
  intros Hinv Hstep. pose proof Hinv as [Hq Hj Hsh Hp Hk].
  destruct (sink_inv_internal_writer k (main s) (fs s) (sink k s) w fs'
              (Hk k) Hstep) as (Hw & Hpath & Hframe).
  split; simpl; try done.
  - destruct k; simpl in *; rewrite ?Hpath; done.
  - intros k'. destruct (decide (k' = k)) as [->|Hne].
    + change (sink k (set_fs fs' (set_sink k w s))) with (sink k (set_sink k w s)).
      by rewrite sink_set_sink_eq.
    + change (sink k' (set_fs fs' (set_sink k w s))) with (sink k' (set_sink k w s)).
      rewrite sink_set_sink_ne by done.
      eapply sink_inv_ext; [apply Hk | done |].
      apply Hframe. by apply inv_path_ne.
Qed.

Lemma join_passed_close_other k k' c c' :
  k' ≠ k →
  join_passed k' (match c' with
                  | Some c' => MClose k c'
                  | None => after_close k
                  end) = join_passed k' (MClose k c).
Proof. intros Hne. destruct k, k', c, c' as [[]|]; done. Qed.

Lemma inv_main s s' : inv s → main_step s = Some s' → inv s'.
Proof.
  intros Hinv Hstep. pose proof Hinv as [Hq Hj Hsh Hp Hk].
  unfold main_step in Hstep.
  destruct (main s) as [[|e effs] [|row rows]| | |k c| | | | | |e] eqn:Hm;
    simpl in Hstep.
  - (* the rows are exhausted *)
    injection Hstep as <-. apply inv_set_main; rewrite ?Hm; done.
  - (* the next row *)
    destruct (ingest_row row) as [effs|e]; injection Hstep as <-;
      apply inv_set_main; rewrite ?Hm; done.
  - injection Hstep as <-.
    apply inv_set_main.
    + apply inv_perform; [done | by rewrite Hm].
    + done.
    + replace (main (perform e s)) with (main s) by (by destruct e).
      by rewrite Hm.
    + intros k. replace (main (perform e s)) with (main s) by (by destruct e).
      by rewrite Hm.
  - injection Hstep as <-.
    apply inv_set_main.
    + apply inv_perform; [done | by rewrite Hm].
    + done.
    + replace (main (perform e s)) with (main s) by (by destruct e).
      by rewrite Hm.
    + intros k. replace (main (perform e s)) with (main s) by (by destruct e).
      by rewrite Hm.
  - (* q.join() *)
    destruct (Queue.all_tasks_done (q s)) eqn:Hdone; [|done].
    injection Hstep as <-. apply bool_decide_eq_true in Hdone.
    apply inv_set_main; rewrite ?Hm; done.
  - (* shutdown_event.set() *)
    injection Hstep as <-.
    split; simpl; try done.
    intros k. eapply sink_inv_ext; [apply Hk | by destruct k | done].
  - (* csv_k.close() *)
    destruct (CSVWriter.close c (sink k s)) as [[w c']|] eqn:Hclose;
      simpl in Hstep; [|done].
    injection Hstep as <-.
    destruct (sink_inv_close k c (fs s) (sink k s) w c' (Hk k) Hclose)
      as [Hw Hpath].
    split; simpl; try done.
    + intros _. by apply Hj.
    + rewrite Hsh. by destruct c' as [c'|]; [|destruct k].
    + destruct k; simpl in *; rewrite ?Hpath; done.
    + intros k'. destruct (decide (k' = k)) as [->|Hne].
      * change (sink k (set_main ?m ?s0)) with (sink k s0).
        by rewrite sink_set_sink_eq.
      * change (sink k' (set_main ?m ?s0)) with (sink k' s0).
        rewrite sink_set_sink_ne by done.
        eapply sink_inv_ext; [apply Hk | by apply join_passed_close_other | done].
  - injection Hstep as <-. apply inv_set_main; rewrite ?Hm; done.
  - destruct (Queue.all_tasks_done (IOCStat.queue (stat s))); [|done].
    injection Hstep as <-. apply inv_set_main; rewrite ?Hm; done.
  - injection Hstep as <-.
    split; simpl; try done.
    intros k. eapply sink_inv_ext; [apply Hk | done | done].
  - destruct (only_main_alive s); [|done].
    injection Hstep as <-. apply inv_set_main; rewrite ?Hm; done.
  - done.
  - done.
Qed.

Lemma inv_step t s s' : inv s → step t s = Some s' → inv s'.
Proof.
  intros Hinv Hstep. destruct t as [|i net|k|]; simpl in Hstep.
  - by eapply inv_main.
  - by eapply inv_worker.
  - destruct (CSVWriter.internal_writer (sink k s) (fs s)) as [[w fs']|] eqn:Hw;
      simpl in Hstep; [|done].
    injection Hstep as <-. by apply inv_writer.
  - destruct (IOCStat.stat_keeper (stat s)) as [st|]; simpl in Hstep; [|done].
    injection Hstep as <-. destruct Hinv. split; done.
Qed.

Lemma inv_run sched s s' : inv s → run sched s = Some s' → inv s'.
Proof.
  revert s. induction sched as [|t sched IH]; intros s Hinv Hrun; simpl in Hrun.
  - by injection Hrun as <-.
  - destruct (step t s) as [s1|] eqn:Hstep; simpl in Hrun; [|done].
    eapply IH; [|done]. by eapply inv_step.
Qed.

(** *** Start-up *)

Lemma append_inj_l (p a b : string) : p +:+ a = p +:+ b → a = b.
Proof.
  induction p as [|ch p IH]; simpl; [done|].
  intros [= H]. by apply IH.
Qed.

(** The role tags of the three output files. *)
Definition role (k : sink_id) : string :=
  match k with
  | Blocked => "_blocked"
  | Policy => "_policy"
  | Error => "_error"
  end.

(** The three output files have three different names, whatever the output
    directory, the time stamp and the name of the input file are. *)
Lemma outputfile_inj outpath ts base k1 k2 :
  outputfile outpath ts (role k1) base = outputfile outpath ts (role k2) base →
  k1 = k2.
Proof.
  unfold outputfile, os_path_join.
  assert (∀ k, String.prefix "/" (ts +:+ role k +:+ "_" +:+ base)
               = String.prefix "/" (ts +:+ "_")) as Habs.
  { assert (∀ rest, String.prefix "" rest = true) as Hnil by (by intros []).
    intros k. destruct ts as [|ch ts]; [by destruct k|]. simpl.
    case_match; [|done]. by rewrite !Hnil. }
  rewrite !Habs.
  assert (role k1 +:+ "_" +:+ base = role k2 +:+ "_" +:+ base → k1 = k2) as Hrole
    by (destruct k1, k2; intros Heq; first [reflexivity | discriminate Heq]).
  destruct (String.prefix "/" (ts +:+ "_"));
    [|destruct (String.eqb outpath "" || endswith_sep outpath)];
    intros H; apply Hrole.
  - by apply append_inj_l in H.
  - apply append_inj_l in H. by apply append_inj_l in H.
  - apply append_inj_l in H. apply (append_inj_l "/") in H.
    by apply append_inj_l in H.
Qed.

Lemma in_hand_count_replicate n : in_hand_count (replicate n WkLoop) = 0.
Proof. unfold in_hand_count. induction n as [|n IH]; simpl; [done|]. apply IH. Qed.

Lemma sink_inv_init k path fieldnames files :
  files !! path = Some [Header fieldnames] →
  sink_inv k (MIngest [] []) files
    {| CSVWriter.path := path; CSVWriter.fieldnames := fieldnames;
       CSVWriter.queue := Queue.new; CSVWriter.finished := false;
       CSVWriter.closed := false; CSVWriter.writer := CSVWriter.WrLoop;
       CSVWriter.submitted := [] |}.
Proof.
  intros Hfile. split; simpl; try done.
  exists [], []. done.
Qed.

Lemma inv_startup outpath ts base input n fs0 s0 :
  startup outpath ts base input n fs0 = Ok s0 → inv s0.
Proof.
  unfold startup. destruct (rows input) as [|row rest]; simpl; [done|].
  intros [= <-].
  assert (outputfile outpath ts "_blocked" base ≠ outputfile outpath ts "_policy" base)
    as Hbp by (intros H%(outputfile_inj _ _ _ Blocked Policy); discriminate H).
  assert (outputfile outpath ts "_blocked" base ≠ outputfile outpath ts "_error" base)
    as Hbe by (intros H%(outputfile_inj _ _ _ Blocked Error); discriminate H).
  assert (outputfile outpath ts "_policy" base ≠ outputfile outpath ts "_error" base)
    as Hpe by (intros H%(outputfile_inj _ _ _ Policy Error); discriminate H).
  split; simpl.
  - by rewrite in_hand_count_replicate.
  - done.
  - done.
  - done.
  - intros k.
    eapply sink_inv_ext with (m := MIngest [] []); [|done|done].
    destruct k; simpl; apply sink_inv_init.
    + rewrite lookup_insert_ne by done. rewrite lookup_insert_ne by done.
      by rewrite lookup_insert_eq.
    + rewrite lookup_insert_ne by done. by rewrite lookup_insert_eq.
    + by rewrite lookup_insert_eq.
Qed.

Lemma inv_reachable outpath ts base input n fs0 s :
  reachable outpath ts base input n fs0 s → inv s.
Proof.
  intros (s0 & sched & Hstart & Hrun).
  eapply inv_run; [|done]. by eapply inv_startup.
Qed.

(** *** Shutdown order *)

(** C4: in every state that a run reaches, the shutdown signal is raised
    only with the work queue drained; [main] is inside [csv_k.close()], or
    sink [k] is marked finished or closed, only with the work queue drained
    and the signal raised; and once the handle of sink [k] is released, its
    pending queue is empty and acknowledged, its writer thread is alive or
    has left its loop, and its file holds the header and every record ever
    submitted to it, in order. *)
Theorem sinks_close_after_drain outpath ts base input n fs0 s :
  reachable outpath ts base input n fs0 s →
  (shutdown_event s = true → drained s) ∧
  ∀ k,
    (∀ c, main s = MClose k c → drained s ∧ shutdown_event s = true) ∧
    (CSVWriter.finished (sink k s) = true ∨ CSVWriter.closed (sink k s) = true →
     drained s ∧ shutdown_event s = true) ∧
    (CSVWriter.closed (sink k s) = true →
     Queue.items (CSVWriter.queue (sink k s)) = [] ∧
     Queue.unfinished_tasks (CSVWriter.queue (sink k s)) = 0 ∧
     (∀ e, CSVWriter.writer (sink k s) ≠ CSVWriter.WrDead e) ∧
     fs s !! CSVWriter.path (sink k s) =
       Some (Header (CSVWriter.fieldnames (sink k s))
             :: (Row <$> CSVWriter.submitted (sink k s)))).
Proof.
  intros Hreach. pose proof (inv_reachable _ _ _ _ _ _ _ Hreach) as Hinv.
  pose proof Hinv as [Hq Hj Hsh Hp Hk].
  assert (Hraised : shutdown_raised (main s) = true → drained s).
  { intros H. apply inv_drained; [done|]. by destruct (main s). }
  assert (Hpassed : ∀ k, join_passed k (main s) = true →
                         drained s ∧ shutdown_event s = true).
  { intros k H. apply join_passed_shutdown_raised in H.
    split; [by apply Hraised | by rewrite Hsh]. }
  split.
  - rewrite Hsh. apply Hraised.
  - intros k.
    destruct (Hk k) as [Hc (written & taken & Hfile & Htaken & Hsub) Hjk Hfin Hcl].
    split; [|split].
    + intros c Hm. rewrite Hsh, Hm. split; [|done].
      apply Hraised. by rewrite Hm.
    + intros [H|H]; apply Hpassed with k; auto.
    + intros Hclosed. specialize (Hjk (Hcl Hclosed)).
      rewrite Hjk in Hc.
      assert (Queue.items (CSVWriter.queue (sink k s)) = []) as Hitems
        by (destruct (Queue.items (CSVWriter.queue (sink k s)));
            [done | simpl in Hc; lia]).
      assert (owed (CSVWriter.writer (sink k s)) = 0) as Howed by lia.
      assert (taken = []) as ->
        by (destruct (CSVWriter.writer (sink k s)); simpl in *; done).
      rewrite Hitems, !app_nil_r in Hsub.
      rewrite Hsub. split; [done|]. split; [done|]. split; [|done].
      intros e He. by rewrite He in Howed.
Qed.

(** *** A complete run *)

(** Two rows: an address, which the service rates 9, and a file hash,
    which is not a supported type. *)
Definition address_row : IndicatorRecord :=
  <["Indicator" := VStr "8.8.8.8"]> (<["ThreatType" := VStr "IP Address"]> ∅).

Definition hash_row : IndicatorRecord :=
  <["Indicator" := VStr "d41d8cd98f00b204"]> (<["ThreatType" := VStr "Hash"]> ∅).

Definition two_rows : csv_file :=
  {| header := ["ThreatType"; "Indicator"]; rows := [address_row; hash_row] |}.

Definition rated_nine : string → Classifier.http_outcome := fun _ =>
  Classifier.Responded
    {| Classifier.status_code := 200;
       Classifier.json :=
         {| Classifier.categorization := None;
            Classifier.threatRiskLevel :=
              Some {| Classifier.level := Some 9%Z |} |} |}.

(** One worker; every thread runs until it has nothing left to do. *)
Definition one_worker_schedule : list thread :=
  let w := TWorker 0 rated_nine in
  replicate 6 TMain ++ replicate 6 w ++ replicate 2 TMain ++ [w] ++
  replicate 4 (TWriter Blocked) ++ replicate 3 TMain ++ [TWriter Blocked] ++
  replicate 3 TMain ++ [TWriter Policy] ++
  replicate 4 (TWriter Error) ++ replicate 3 TMain ++ [TWriter Error] ++
  [TMain] ++ replicate 8 TStat ++ replicate 2 TMain ++ [TStat] ++ [TMain].

Definition two_rows_run : option state :=
  match startup "output" "20211104093000" "iocs.csv" two_rows 1 ∅ with
  | Ok s0 => run one_worker_schedule s0
  | Raise _ => None
  end.

Lemma sinks_close_after_drain_witness :
  ∃ s, two_rows_run = Some s ∧
       main s = MDone ∧
       CSVWriter.closed (csv_blocked s) = true ∧
       drained s ∧
       fs s !! CSVWriter.path (csv_blocked s) =
         Some (Header (CSVWriter.fieldnames (csv_blocked s))
               :: (Row <$> CSVWriter.submitted (csv_blocked s))).
Proof.
  destruct two_rows_run as [s|] eqn:Hrun; [|by vm_compute in Hrun].
  exists s. split; [done|].
  assert (reachable "output" "20211104093000" "iocs.csv" two_rows 1 ∅ s) as Hreach.
  { unfold two_rows_run in Hrun.
    destruct (startup "output" "20211104093000" "iocs.csv" two_rows 1 ∅)
      as [s0|] eqn:Hstart; [|done].
    by exists s0, one_worker_schedule. }
  assert (main s = MDone ∧ CSVWriter.closed (csv_blocked s) = true) as [Hm Hcl].
  { vm_compute in Hrun. injection Hrun as <-. by vm_compute. }
  destruct (sinks_close_after_drain _ _ _ _ _ _ s Hreach) as [_ Hsinks].
  destruct (Hsinks Blocked) as (_ & Hdrain & Hfile).
  split; [done|]. split; [done|].
  split; [apply Hdrain; by right|].
  by apply Hfile.
Defined.

(** *** The output files of [rlcheckmt.py] *)

Lemma perform_path e s k :
  CSVWriter.path (sink k (perform e s)) = CSVWriter.path (sink k s).
Proof.
  destruct e as [| |k' item|]; try done.
  simpl. destruct (decide (k = k')) as [->|Hne].
  - by rewrite sink_set_sink_eq.
  - by rewrite sink_set_sink_ne.
Qed.

(** No step renames a sink. *)
Lemma step_path t s s' k :
  step t s = Some s' →
  CSVWriter.path (sink k s') = CSVWriter.path (sink k s).
Proof.
  intros Hstep. destruct t as [|i net|k'|]; simpl in Hstep.
  - unfold main_step in Hstep.
    destruct (main s) as [effs rows| | |k' c| | | | | |e]; simpl in Hstep.
    + destruct effs as [|e effs].
      * destruct rows as [|row rows]; [|destruct (ingest_row row)];
          injection Hstep as <-; by destruct k.
      * injection Hstep as <-.
        change (sink k (set_main ?m ?s0)) with (sink k s0). apply perform_path.
    + destruct (Queue.all_tasks_done (q s)); [|done].
      injection Hstep as <-. by destruct k.
    + injection Hstep as <-. by destruct k.
    + destruct (CSVWriter.close c (sink k' s)) as [[w c']|] eqn:Hclose;
        simpl in Hstep; [|done].
      injection Hstep as <-.
      assert (CSVWriter.path w = CSVWriter.path (sink k' s)) as Hpath.
      { destruct c; simpl in Hclose; repeat case_match; by simplify_eq. }
      change (sink k (set_main ?m ?s0)) with (sink k s0).
      destruct (decide (k = k')) as [->|Hne].
      * by rewrite sink_set_sink_eq.
      * by rewrite sink_set_sink_ne.
    + injection Hstep as <-. by destruct k.
    + destruct (Queue.all_tasks_done (IOCStat.queue (stat s))); [|done].
      injection Hstep as <-. by destruct k.
    + injection Hstep as <-. by destruct k.
    + destruct (only_main_alive s); [|done].
      injection Hstep as <-. by destruct k.
    + done.
    + done.
  - unfold worker in Hstep.
    destruct (threads s !! i) as [w|]; simpl in Hstep; [|done].
    destruct w as [| |item|[|e effs]| |e]; simpl in Hstep;
      repeat case_match; simplify_eq; try (by destruct k).
    apply (perform_path e s k).
  - destruct (CSVWriter.internal_writer (sink k' s) (fs s)) as [[w fs']|] eqn:Hw;
      simpl in Hstep; [|done].
    injection Hstep as <-.
    assert (CSVWriter.path w = CSVWriter.path (sink k' s)) as Hpath.
    { unfold CSVWriter.internal_writer in Hw.
      repeat case_match; by simplify_eq. }
    change (sink k (set_fs fs' ?s0)) with (sink k s0).
    destruct (decide (k = k')) as [->|Hne].
    + by rewrite sink_set_sink_eq.
    + by rewrite sink_set_sink_ne.
  - destruct (IOCStat.stat_keeper (stat s)); simpl in Hstep; [|done].
    injection Hstep as <-. by destruct k.
Qed.

Lemma run_path sched s s' k :
  run sched s = Some s' →
  CSVWriter.path (sink k s') = CSVWriter.path (sink k s).
Proof.
  revert s. induction sched as [|t sched IH]; intros s Hrun; simpl in Hrun.
  - by injection Hrun as <-.
  - destruct (step t s) as [s1|] eqn:Hstep; simpl in Hrun; [|done].
    rewrite (IH s1 Hrun). by eapply step_path.
Qed.

(** From start-up on, each of the three output files exists, whatever the
    run does: [rlcheckmt.py] has no statement that removes a file. *)
Lemma output_files_stay outpath ts base input n fs0 s k :
  reachable outpath ts base input n fs0 s →
  ∃ written taken,
    fs s !! outputfile outpath ts (role k) base =
      Some (Header (CSVWriter.fieldnames (sink k s)) :: (Row <$> written)) ∧
    unwritten (CSVWriter.writer (sink k s)) taken ∧
    CSVWriter.submitted (sink k s) =
      written ++ taken ++ Queue.items (CSVWriter.queue (sink k s)).
Proof.
  intros Hreach. pose proof (inv_reachable _ _ _ _ _ _ _ Hreach) as Hinv.
  destruct Hreach as (s0 & sched & Hstart & Hrun).
  assert (CSVWriter.path (sink k s) = outputfile outpath ts (role k) base) as <-.
  { rewrite (run_path sched s0 s k Hrun).
    unfold startup in Hstart. destruct (rows input); simpl in Hstart; [done|].
    injection Hstart as <-. by destruct k. }
  destruct Hinv as [_ _ _ _ Hk]. by destruct (Hk k).
Qed.

(** A run on an input whose only row has an unsupported type. *)
Definition hash_only : csv_file :=
  {| header := ["ThreatType"; "Indicator"]; rows := [hash_row] |}.

Definition hash_only_schedule : list thread :=
  replicate 6 TMain ++ [TWorker 0 rated_nine] ++
  replicate 3 TMain ++ [TWriter Blocked] ++
  replicate 3 TMain ++ [TWriter Policy] ++
  replicate 4 (TWriter Error) ++ replicate 3 TMain ++ [TWriter Error] ++
  [TMain] ++ replicate 4 TStat ++ replicate 2 TMain ++ [TStat; TMain].

Definition hash_only_run : option state :=
  match startup "output" "20211104093000" "iocs.csv" hash_only 1 ∅ with
  | Ok s0 => run hash_only_schedule s0
  | Raise _ => None
  end.

(** C7: not so for [rlcheckmt.py]: the run on [hash_only] completes, the
    blocked and the policy sink received no record, and both of their
    files are left behind, holding the header line only. *)
Theorem empty_output_files_are_left_behind :
  ∃ s, hash_only_run = Some s ∧
       main s = MDone ∧
       CSVWriter.submitted (csv_blocked s) = [] ∧
       CSVWriter.submitted (csv_policy s) = [] ∧
       fs s !! "output/20211104093000_blocked_iocs.csv" =
         Some [Header ["ThreatType"; "Indicator"; "BC_RiskLevel"; "BC_Category"]] ∧
       fs s !! "output/20211104093000_policy_iocs.csv" =
         Some [Header ["ThreatType"; "Indicator"; "BC_RiskLevel"; "BC_Category"]].
Proof.
  destruct hash_only_run as [s|] eqn:Hrun; [|by vm_compute in Hrun].
  exists s. split; [done|].
  vm_compute in Hrun. injection Hrun as <-.
  repeat split; vm_compute; reflexivity.
Qed.

End PipelineFacts.

(** ** The single-threaded script removes its empty output files *)

Section LegacyFacts.
Import Legacy.

(** File [path] exists and holds [count] rows. *)
Definition tally (path : string) (count : Z) (files : filesystem) : Prop :=
  ∃ lines, files !! path = Some lines ∧ Z.of_nat (length (rows_of lines)) = count.

Lemma rows_of_app l1 l2 : rows_of (l1 ++ l2) = rows_of l1 ++ rows_of l2.
Proof. apply omap_app. Qed.

Lemma tally_append_other path path' l count files :
  path' ≠ path →
  tally path count files → tally path count (append_line path' l files).
Proof.
  intros Hne (lines & Hfile & Hcount). exists lines.
  unfold append_line. by rewrite lookup_alter_ne.
Qed.

Lemma tally_append_header path fieldnames count files :
  tally path count files →
  tally path count (append_line path (Header fieldnames) files).
Proof.
  intros (lines & Hfile & Hcount). exists (lines ++ [Header fieldnames]).
  unfold append_line. rewrite lookup_alter_eq, Hfile. split; [done|].
  rewrite rows_of_app. simpl. by rewrite app_nil_r.
Qed.

Lemma tally_append_row path data count files :
  tally path count files →
  tally path (count + 1) (append_line path (Row data) files).
Proof.
  intros (lines & Hfile & Hcount). exists (lines ++ [Row data]).
  unfold append_line. rewrite lookup_alter_eq, Hfile. split; [done|].
  rewrite rows_of_app, length_app. simpl. lia.
Qed.

Section LegacyMain.
Variable requests_get : string → Classifier.http_outcome.
Variables outputfile_blocked outputfile_policy outputfile_error : string.
Variable header : list string.
Hypothesis blocked_policy : outputfile_blocked ≠ outputfile_policy.
Hypothesis blocked_error : outputfile_blocked ≠ outputfile_error.
Hypothesis policy_error : outputfile_policy ≠ outputfile_error.

(** Each counter of [main] counts the rows of its file. *)
Definition counted (st : locals) : Prop :=
  tally outputfile_blocked (blocked_count st) (fs st) ∧
  tally outputfile_policy (policy_count st) (fs st) ∧
  tally outputfile_error (error_count st) (fs st).

Lemma loop_body_counted st row st' :
  counted st →
  loop_body requests_get outputfile_blocked outputfile_policy outputfile_error
    header st row = Ok st' →
  counted st'.
Proof.
  intros Hst Hbody. unfold loop_body in Hbody.
  set (st1 := if (line_count st =? 0)%Z then _ else st) in Hbody.
  assert (counted st1) as (Hb & Hp & He).
  { subst st1. destruct (line_count st =? 0)%Z; [|done].
    destruct Hst as (Hb & Hp & He). unfold counted. simpl.
    repeat split;
      repeat first [ apply tally_append_header
                   | apply tally_append_other; [congruence|] ]; done. }
  clearbody st1.
  destruct (row !! "ThreatType") as [v|]; [|done].
  destruct (Pipeline.supported v); [|by injection Hbody as <-].
  destruct (getitem_str row "Indicator") as [ioc|]; simpl in Hbody; [|done].
  destruct (rlcheck requests_get ioc) as [ret|]; simpl in Hbody; [|done].
  destruct (getitem "error" (error ret)) as [err|]; simpl in Hbody; [|done].
  destruct (err =? 0)%Z.
  - destruct (getitem "blocked" (blocked ret)) as [b|]; simpl in Hbody; [|done].
    destruct (b =? 1)%Z; [|destruct (b =? 0)%Z].
    + destruct (getitem "risklevel" (risklevel ret)); simpl in Hbody; [|done].
      injection Hbody as <-. unfold counted. simpl.
      repeat split;
        first [ by apply tally_append_row
              | apply tally_append_other; [congruence | done] ].
    + destruct (getitem "risklevel" (risklevel ret)); simpl in Hbody; [|done].
      injection Hbody as <-. unfold counted. simpl.
      repeat split;
        first [ by apply tally_append_row
              | apply tally_append_other; [congruence | done] ].
    + by injection Hbody as <-.
  - injection Hbody as <-. unfold counted. simpl.
    repeat split;
      first [ by apply tally_append_row
            | apply tally_append_other; [congruence | done] ].
Qed.

Lemma loop_counted rows st st' :
  counted st →
  loop requests_get outputfile_blocked outputfile_policy outputfile_error
    header st rows = Ok st' →
  counted st'.
Proof.
  revert st. induction rows as [|row rows IH]; intros st Hst Hloop;
    simpl in Hloop.
  - by injection Hloop as <-.
  - destruct (loop_body _ _ _ _ _ st row) as [st1|] eqn:Hbody;
      simpl in Hloop; [|done].
    eapply IH; [|done]. by eapply loop_body_counted.
Qed.

Lemma tally_remove_if_zero path count files lines :
  tally path count files →
  remove_if_zero count path files !! path = Some lines →
  rows_of lines ≠ [].
Proof.
  intros (lines' & Hfile & Hcount). unfold remove_if_zero.
  destruct (count =? 0)%Z eqn:Hzero.
  - by rewrite lookup_delete_eq.
  - rewrite Hfile. intros [= <-] Hnil. rewrite Hnil in Hcount.
    apply Z.eqb_neq in Hzero. simpl in Hcount. lia.
Qed.

Lemma remove_if_zero_other path path' count files :
  path' ≠ path →
  remove_if_zero count path' files !! path = files !! path.
Proof.
  intros Hne. unfold remove_if_zero.
  destruct (count =? 0)%Z; [|done]. by rewrite lookup_delete_ne.
Qed.

Lemma tally_remove_other path path' count count' files :
  path' ≠ path →
  tally path count files → tally path count (remove_if_zero count' path' files).
Proof.
  intros Hne (lines & Hfile & Hcount). exists lines.
  by rewrite remove_if_zero_other.
Qed.

(** When [main] of [rlcheck.py] returns, an output file that still exists
    holds at least one row. *)
Lemma legacy_main_leaves_no_empty_file rows fs0 fs' path lines :
  main requests_get outputfile_blocked outputfile_policy outputfile_error
    header rows fs0 = Ok fs' →
  path ∈ [outputfile_blocked; outputfile_policy; outputfile_error] →
  fs' !! path = Some lines →
  rows_of lines ≠ [].
Proof.
  unfold main. intros Hmain Hpath Hfile.
  destruct (loop _ _ _ _ _ _ rows) as [st|] eqn:Hloop; simpl in Hmain; [|done].
  injection Hmain as <-.
  assert (counted st) as (Hb & Hp & He).
  { eapply loop_counted; [|exact Hloop]. unfold counted, tally. simpl.
    repeat split; exists [].
    - rewrite lookup_insert_ne by done. rewrite lookup_insert_ne by done.
      by rewrite lookup_insert_eq.
    - rewrite lookup_insert_ne by done. by rewrite lookup_insert_eq.
    - by rewrite lookup_insert_eq. }
  repeat (apply elem_of_cons in Hpath as [-> | Hpath]).
  - rewrite !remove_if_zero_other in Hfile by done.
    eapply tally_remove_if_zero; [exact Hb | exact Hfile].
  - rewrite remove_if_zero_other in Hfile by done.
    eapply tally_remove_if_zero; [|exact Hfile].
    apply tally_remove_other; [done | exact Hp].
  - eapply tally_remove_if_zero; [|exact Hfile].
    do 2 (apply tally_remove_other; [done|]). exact He.
  - by apply elem_of_nil in Hpath.
Qed.

End LegacyMain.

(** On the input with one row of an unsupported type, [rlcheck.py] leaves
    no file at all. *)
Example legacy_main_hash_only :
  main rated_nine "output/20211104093000_iocs.csv_blocked"
    "output/20211104093000_iocs.csv_policy"
    "output/20211104093000_iocs.csv_error"
    ["ThreatType"; "Indicator"] [hash_row] ∅ = Ok ∅.
Proof. vm_compute. reflexivity. Qed.

End LegacyFacts.

(** ** The theorems at concrete inputs *)

Section Examples.
Import Classifier Worker Aggregator Pipeline.

(** The service answers 200 with the given risk level and no category. *)
Definition rated (lvl : Z) : string → http_outcome := fun _ =>
  Responded {| status_code := 200;
               json := {| categorization := None;
                          threatRiskLevel := Some {| level := Some lvl |} |} |}.

(** The service answers with the given status code and an empty body. *)
Definition answers (code : Z) : string → http_outcome := fun _ =>
  Responded {| status_code := code;
               json := {| categorization := None; threatRiskLevel := None |} |}.

Definition domain_row : IndicatorRecord :=
  <["Indicator" := VStr "example.org"]> (<["ThreatType" := VStr "Domain"]> ∅).

Lemma blocked_by_risk_level_iff_witness :
  ∃ ret, rlcheck (rated 8) "8.8.8.8" = Ok ret ∧
    MIN_BLOCKED_RISK_LEVEL = 8 ∧
    (blocked_by_rl ret = Some 1 ↔ MIN_BLOCKED_RISK_LEVEL ≤ 8) ∧
    (MIN_BLOCKED_RISK_LEVEL ≤ 8 → blocked ret = 1) ∧
    (8 = 8 → blocked_by_rl ret = Some 1 ∧ blocked ret = 1).
Proof.
  eapply (blocked_by_risk_level_iff (rated 8) "8.8.8.8" _ {| level := Some 8 |} 8);
    reflexivity.
Defined.

Lemma risklevel_defaults_to_zero_witness :
  ∃ ret, rlcheck (answers 200) "example.org" = Ok ret ∧ risklevel ret = 0.
Proof.
  eapply (risklevel_defaults_to_zero (answers 200) "example.org" _); reflexivity.
Defined.

Lemma do_work_frame_witness :
  ∃ item' effs k,
    do_work (rated 2) domain_row = Ok (item', effs) ∧
    sink_writes k effs = [item'] ∧
    (∀ key, key ≠ "BC_RiskLevel" → key ≠ "BC_Category" →
            item' !! key = domain_row !! key) ∧
    dom item' = dom domain_row ∪ ({["BC_RiskLevel"; "BC_Category"]} : gset string) ∧
    item' !! "BC_RiskLevel" = Some (VInt 2) ∧
    item' !! "BC_Category" = Some (VStr "").
Proof.
  apply (do_work_frame (rated 2) domain_row "example.org"
           (on_ok {| categorization := None;
                     threatRiskLevel := Some {| level := Some 2 |} |} fresh_ret));
    reflexivity.
Defined.

Lemma unhandled_status_goes_to_policy_witness :
  rlcheck (answers 503) "example.org" =
    Ok {| error := ErrCode 0; blocked := 0; risklevel := 0; category := [];
          blocked_by_cat := None; blocked_by_rl := None |} ∧
  ∃ effs, do_work (answers 503) domain_row = Ok (item_update 0 "" domain_row, effs) ∧
          routed_to Policy "policy" (item_update 0 "" domain_row) effs.
Proof.
  eapply (unhandled_status_goes_to_policy (answers 503) domain_row "example.org" _).
  - reflexivity.
  - reflexivity.
  - apply (bool_decide_unpack _). exact I.
Defined.

Lemma stat_keeper_total_is_sum_witness :
  balanced (stat_keeper [{| type := "blocked" |}; {| type := "error" |}]) ∧
  balanced (stat_keeper ([{| type := "blocked" |}; {| type := "error" |}]
                         ++ [{| type := "policy" |}])) ∧
  counters_le (stat_keeper [{| type := "blocked" |}; {| type := "error" |}])
    (stat_keeper ([{| type := "blocked" |}; {| type := "error" |}]
                  ++ [{| type := "policy" |}])).
Proof.
  apply (stat_keeper_total_is_sum
           [{| type := "blocked" |}; {| type := "error" |}] [{| type := "policy" |}]).
  repeat constructor; apply (bool_decide_unpack _); exact I.
Defined.

Lemma ingest_partitions_witness :
  ∃ effs, ingest [address_row; hash_row] = Ok effs ∧
    queue_puts effs =
      filter (fun row => row !! "ThreatType" ∈
                [Some (VStr "IP Address"); Some (VStr "Domain"); Some (VStr "URL")])
        [address_row; hash_row] ∧
    sink_writes Error effs =
      filter (fun row => row !! "ThreatType" ∉
                [Some (VStr "IP Address"); Some (VStr "Domain"); Some (VStr "URL")])
        [address_row; hash_row] ∧
    stat_updates effs =
      (fun _ => {| type := "error" |}) <$>
        filter (fun row => row !! "ThreatType" ∉
                  [Some (VStr "IP Address"); Some (VStr "Domain"); Some (VStr "URL")])
          [address_row; hash_row] ∧
    sink_writes Blocked effs = [] ∧
    sink_writes Policy effs = [].
Proof.
  apply (ingest_partitions [address_row; hash_row]).
  repeat constructor; eexists; reflexivity.
Defined.

End Examples.

(** * Further properties *)

(** ** What [rlcheck] makes of an answer *)

Section ClassifierResults.
Import Classifier.

(** [data["categorization"]["categories"]], empty when a key is missing. *)
Definition response_categories (data : json_t) : list category_t :=
  match categorization data with
  | Some c => default [] (categories c)
  | None => []
  end.

(** [data["threatRiskLevel"]["level"]], when both keys are there. *)
Definition response_level (data : json_t) : option Z :=
  match threatRiskLevel data with
  | Some t => level t
  | None => None
  end.

Lemma categories_loop_category cats ret :
  category (foldl categories_step ret cats) = category ret ++ (name <$> cats).
Proof.
  revert ret. induction cats as [|cat cats IH]; intros ret; simpl.
  - by rewrite app_nil_r.
  - rewrite IH. unfold categories_step.
    destruct (py_in (id cat) BLOCKED_CATEGORY_IDS); simpl;
      by rewrite <- (assoc_L (++)).
Qed.

Lemma categories_loop_blocked cats ret :
  blocked ret = 0 ∨ blocked ret = 1 →
  (blocked (foldl categories_step ret cats) = 0 ∨
   blocked (foldl categories_step ret cats) = 1) ∧
  (blocked (foldl categories_step ret cats) = 1 ↔
   blocked ret = 1 ∨ ∃ cat, cat ∈ cats ∧ id cat ∈ BLOCKED_CATEGORY_IDS).
Proof.
  revert ret. induction cats as [|cat cats IH]; intros ret Hret; simpl.
  - split; [done|]. split; [by left|]. intros [?|(cat & Hin & _)]; [done|].
    by apply elem_of_nil in Hin.
  - assert (blocked (categories_step ret cat) = 0 ∨
            blocked (categories_step ret cat) = 1) as Hstep
      by (unfold categories_step; destruct (py_in _ _); simpl; auto).
    destruct (IH _ Hstep) as [Hrange Hiff]. split; [done|].
    rewrite Hiff. unfold categories_step, py_in.
    destruct (bool_decide (id cat ∈ BLOCKED_CATEGORY_IDS)) eqn:Hcat; simpl.
    + apply bool_decide_eq_true in Hcat. split; [|by left].
      intros _. right. exists cat. split; [left|done].
    + apply bool_decide_eq_false in Hcat. split.
      * intros [?|(c & Hin & Hc)]; [by left|].
        right. exists c. split; [by right|done].
      * intros [?|(c & Hin & Hc)]; [by left|].
        apply elem_of_cons in Hin as [->|Hin]; [done|].
        right. by exists c.
Qed.

Lemma after_categories_eq data :
  after_categories data =
  foldl categories_step
    (set_category [] (set_blocked 0 (set_error (ErrCode 0) fresh_ret)))
    (response_categories data).
Proof.
  unfold after_categories, response_categories.
  destruct (categorization data) as [c|]; [|done].
  by destruct (categories c).
Qed.

Lemma on_ok_eq data :
  on_ok data fresh_ret =
  match response_level data with
  | Some lvl =>
      let ret := set_risklevel lvl (after_categories data) in
      if MIN_BLOCKED_RISK_LEVEL <=? lvl
      then set_blocked_by_rl 1 (set_blocked 1 ret)
      else ret
  | None => after_categories data
  end.
Proof.
  unfold on_ok, response_level. fold (after_categories data).
  destruct (threatRiskLevel data) as [t|]; [|done]. by destruct (level t).
Qed.

(** How [rlcheck] arrives at [blocked] on a 200 answer. *)
Lemma blocked_verdict net ioc r :
  net (tex_api_url +:+ ioc) = Responded r →
  status_code r = 200 →
  ∃ ret, rlcheck net ioc = Ok ret ∧
    (blocked ret = 0 ∨ blocked ret = 1) ∧
    (blocked ret = 1 ↔
     (∃ cat, cat ∈ response_categories (json r) ∧ id cat ∈ BLOCKED_CATEGORY_IDS) ∨
     (∃ lvl, response_level (json r) = Some lvl ∧ MIN_BLOCKED_RISK_LEVEL ≤ lvl)).
Proof.
  intros Hnet Hst. exists (interpret r).
  split; [by apply rlcheck_responded|].
  unfold interpret. rewrite Hst. simpl. rewrite on_ok_eq.
  destruct (categories_loop_blocked (response_categories (json r))
              (set_category [] (set_blocked 0 (set_error (ErrCode 0) fresh_ret))))
    as [Hrange Hiff]; [by left|].
  rewrite <- after_categories_eq in Hrange, Hiff.
  destruct (response_level (json r)) as [lvl|]; simpl.
  - destruct (MIN_BLOCKED_RISK_LEVEL <=? lvl) eqn:Hle; simpl.
    + apply Z.leb_le in Hle. split; [by right|]. split; [|done].
      intros _. right. by exists lvl.
    + apply Z.leb_gt in Hle. split; [done|]. rewrite Hiff. split.
      * intros [?|?]; [done | by left].
      * intros [?|(l & [= <-] & ?)]; [by right | lia].
  - split; [done|]. rewrite Hiff. split.
    + intros [?|?]; [done | by left].
    + intros [?|(l & ? & _)]; [by right | done].
Qed.

(** A 200 answer is blocked exactly when one of its categories is in
    [BLOCKED_CATEGORY_IDS] or its risk level is at least
    [MIN_BLOCKED_RISK_LEVEL]; [blocked] is 0 or 1. *)
Theorem blocked_iff_category_or_level net ioc r :
  net (tex_api_url +:+ ioc) = Responded r →
  status_code r = 200 →
  ∃ ret, rlcheck net ioc = Ok ret ∧
    (blocked ret = 0 ∨ blocked ret = 1) ∧
    (blocked ret = 1 ↔
     (∃ cat, cat ∈ response_categories (json r) ∧ id cat ∈ BLOCKED_CATEGORY_IDS) ∨
     (∃ lvl, response_level (json r) = Some lvl ∧ MIN_BLOCKED_RISK_LEVEL ≤ lvl)).
Proof. apply blocked_verdict. Qed.

(** The category names of a 200 answer are returned in the order of the
    answer, the risk level is the one of the answer or 0, and the error
    code is 0. *)
Theorem ok_result_fields net ioc r :
  net (tex_api_url +:+ ioc) = Responded r →
  status_code r = 200 →
  ∃ ret, rlcheck net ioc = Ok ret ∧
    error ret = ErrCode 0 ∧
    category ret = name <$> response_categories (json r) ∧
    risklevel ret = default 0 (response_level (json r)).
Proof.
  intros Hnet Hst. exists (interpret r).
  split; [by apply rlcheck_responded|].
  unfold interpret. rewrite Hst. simpl.
  split; [apply on_ok_error|].
  destruct (after_categories_frame (json r)) as (_ & Hrisk & _).
  pose proof (categories_loop_category (response_categories (json r))
                (set_category [] (set_blocked 0 (set_error (ErrCode 0) fresh_ret))))
    as Hcat.
  rewrite <- after_categories_eq in Hcat. simpl in Hcat.
  rewrite on_ok_eq.
  destruct (response_level (json r)) as [lvl|]; simpl; [|done].
  by destruct (MIN_BLOCKED_RISK_LEVEL <=? lvl).
Qed.

Lemma rlcheck_ok_inv net ioc ret :
  rlcheck net ioc = Ok ret →
  ∃ r, net (tex_api_url +:+ ioc) = Responded r ∧ ret = interpret r.
Proof.
  intros Hret. unfold rlcheck in Hret.
  destruct (net (tex_api_url +:+ ioc)) as [r|e|e] eqn:Hnet.
  - exists r. split; [done|].
    pose proof (rlcheck_responded net ioc r Hnet) as Hr.
    unfold rlcheck in Hr. rewrite Hnet in Hr. congruence.
  - done.
  - by destruct e.
Qed.

(** Whatever [rlcheck] returns carries one of the codes 0, 400, 401, 429:
    a result that holds an exception object is never returned, and a
    result is returned only if the request was answered. *)
Theorem rlcheck_returns_status_codes_only net ioc ret :
  rlcheck net ioc = Ok ret →
  (∃ r, net (tex_api_url +:+ ioc) = Responded r) ∧
  error ret ∈ [ErrCode 0; ErrCode 400; ErrCode 401; ErrCode 429] ∧
  (∀ e, error ret ≠ ErrExc e).
Proof.
  intros (r & Hnet & ->)%rlcheck_ok_inv.
  split; [by exists r|].
  pose proof (interpret_error r) as Herr. split; [done|].
  intros e He. rewrite He in Herr.
  repeat (apply elem_of_cons in Herr as [Herr|Herr]; [done|]).
  by apply elem_of_nil in Herr.
Qed.

End ClassifierResults.

(** ** More on the worker *)

Section WorkerResults.
Import Classifier Worker.

(** An answer 400, 401 or 429 is an error with that code: [do_work] logs
    it, reports an [error] event and hands the record, without the two
    derived fields, to the error sink, in this order. *)
Theorem error_status_goes_to_error_sink net item ioc r :
  item !! "Indicator" = Some (VStr ioc) →
  net (tex_api_url +:+ ioc) = Responded r →
  status_code r ∈ [400; 401; 429] →
  do_work net item =
    Ok (item, [Log (ErrCode (status_code r)) ioc;
               StatUpdate {| type := "error" |};
               SinkWrite Error item]).
Proof.
  intros Hioc Hnet Hcode. unfold do_work, getitem_str. rewrite Hioc. simpl.
  rewrite (rlcheck_responded net ioc r Hnet). simpl. unfold interpret.
  repeat (apply elem_of_cons in Hcode as [-> | Hcode]); try done.
  by apply elem_of_nil in Hcode.
Qed.

(** The tag of the event that goes with a sink. *)
Definition tag_of (k : sink_id) : string :=
  match k with
  | Blocked => "blocked"
  | Policy => "policy"
  | Error => "error"
  end.

(** [do_work] returns normally only if the record has a string under
    [Indicator] and the request for it was answered: without the key, on a
    transport failure, or on a 200 answer whose body is not JSON, it
    raises. And whenever it returns, it has handed the record, as it is
    then, to exactly one sink, has reported exactly one event, the one of
    that sink, and has put nothing on the work queue. *)
Theorem do_work_returns_only_if_answered net item item' effs :
  do_work net item = Ok (item', effs) →
  (∃ ioc r, item !! "Indicator" = Some (VStr ioc) ∧
            net (tex_api_url +:+ ioc) = Responded r) ∧
  ∃ k, routed_to k (tag_of k) item' effs.
Proof.
  intros Hres. pose proof Hres as Hdo. unfold do_work, getitem_str in Hres.
  destruct (item !! "Indicator") as [[ioc|n]|] eqn:Hioc; simpl in Hres;
    try done.
  destruct (rlcheck net ioc) as [ret|e] eqn:Hret; simpl in Hres; [|done].
  clear Hres.
  destruct (do_work_routes_once net item ioc ret Hioc Hret) as (effs' & Hdo' & Hrouted).
  rewrite Hdo in Hdo'. injection Hdo' as -> ->.
  apply rlcheck_ok_inv in Hret as (r & Hnet & _).
  split; [by exists ioc, r|].
  exists (verdict ret).1.
  replace (tag_of (verdict ret).1) with (verdict ret).2; [done|].
  unfold verdict. by repeat case_match.
Qed.

(** The names that [join_categories] joins: empty names at the front are
    passed over. *)
Fixpoint skip_empty (names : list string) : list string :=
  match names with
  | "" :: rest => skip_empty rest
  | _ => names
  end.

(** [", " + y1 + ", " + y2 + ...] *)
Fixpoint continued (names : list string) : string :=
  match names with
  | [] => ""
  | y :: rest => ", " +:+ y +:+ continued rest
  end.

Lemma string_app_assoc (a b c : string) : (a +:+ b) +:+ c = a +:+ (b +:+ c).
Proof.
  induction a as [|ch a IH]; [done|].
  change (String ch ((a +:+ b) +:+ c) = String ch (a +:+ (b +:+ c))).
  by rewrite IH.
Qed.

Lemma string_app_nil_r (a : string) : a +:+ "" = a.
Proof.
  induction a as [|ch a IH]; [done|].
  change (String ch (a +:+ "") = String ch a). by rewrite IH.
Qed.

Lemma string_app_nonempty (a b : string) : a ≠ "" → a +:+ b ≠ "".
Proof. by destruct a. Qed.

Lemma concat_cons (x : string) (xs : list string) :
  String.concat ", " (x :: xs) = x +:+ continued xs.
Proof.
  revert x. induction xs as [|y ys IH]; intros x.
  - simpl. by rewrite string_app_nil_r.
  - change (String.concat ", " (x :: y :: ys))
      with (x +:+ ", " +:+ String.concat ", " (y :: ys)).
    by rewrite IH.
Qed.

Lemma join_loop_nonempty (acc : string) (cats : list string) :
  acc ≠ "" →
  foldl (fun categories cat =>
           if String.eqb categories "" then cat
           else categories +:+ ", " +:+ cat) acc cats
  = acc +:+ continued cats.
Proof.
  revert acc. induction cats as [|cat cats IH]; intros acc Hacc; simpl.
  - by rewrite string_app_nil_r.
  - apply String.eqb_neq in Hacc as Hne. rewrite Hne.
    rewrite IH by (by apply string_app_nonempty).
    by rewrite string_app_assoc.
Qed.

(** [BC_Category] is the names joined with a comma and a space, read from
    the first name that is not empty. *)
Theorem join_categories_concat (cats : list string) :
  join_categories cats = String.concat ", " (skip_empty cats).
Proof.
  unfold join_categories. induction cats as [|cat cats IH]; [done|].
  destruct cat as [|ch cat].
  - simpl. exact IH.
  - change (skip_empty (String ch cat :: cats)) with (String ch cat :: cats).
    rewrite concat_cons. simpl. by apply join_loop_nonempty.
Qed.

End WorkerResults.

(** ** More on the aggregator *)

Section AggregatorResults.
Import Aggregator.

(** The number of events of [evs] with tag [tag]. *)
Definition count_tag (tag : string) (evs : list StatEvent) : Z :=
  Z.of_nat (length (filter (fun data => type data = tag) evs)).

Lemma apply_event_counts c data :
  ioc_total (apply_event c data) = (ioc_total c + 1)%Z ∧
  ioc_blocked (apply_event c data) =
    (ioc_blocked c + count_tag "blocked" [data])%Z ∧
  ioc_policy (apply_event c data) =
    (ioc_policy c + count_tag "policy" [data])%Z ∧
  ioc_error (apply_event c data) =
    (ioc_error c + count_tag "error" [data])%Z.
Proof.
  unfold apply_event, count_tag. destruct data as [tag]. simpl.
  rewrite !filter_cons, !filter_nil. simpl.
  destruct (decide (tag = "blocked")) as [->|H1];
    [repeat (case_decide; try done); simpl; repeat split; lia|].
  destruct (decide (tag = "policy")) as [->|H2];
    [repeat (case_decide; try done); simpl; repeat split; lia|].
  destruct (decide (tag = "error")) as [->|H3];
    [repeat (case_decide; try done); simpl; repeat split; lia|].
  apply String.eqb_neq in H1 as ->. apply String.eqb_neq in H2 as ->.
  apply String.eqb_neq in H3 as ->.
  repeat (case_decide; try done). simpl. repeat split; lia.
Qed.

Lemma count_tag_cons tag data evs :
  count_tag tag (data :: evs) = (count_tag tag [data] + count_tag tag evs)%Z.
Proof.
  unfold count_tag. rewrite !filter_cons, filter_nil.
  case_decide; simpl; lia.
Qed.

Lemma events_counts evs c :
  ioc_total (foldl apply_event c evs) = (ioc_total c + Z.of_nat (length evs))%Z ∧
  ioc_blocked (foldl apply_event c evs) = (ioc_blocked c + count_tag "blocked" evs)%Z ∧
  ioc_policy (foldl apply_event c evs) = (ioc_policy c + count_tag "policy" evs)%Z ∧
  ioc_error (foldl apply_event c evs) = (ioc_error c + count_tag "error" evs)%Z.
Proof.
  revert c. induction evs as [|data evs IH]; intros c.
  - unfold count_tag. simpl. repeat split; lia.
  - simpl foldl. destruct (IH (apply_event c data)) as (Ht & Hb & Hp & He).
    destruct (apply_event_counts c data) as (Ht' & Hb' & Hp' & He').
    rewrite Ht, Hb, Hp, He, Ht', Hb', Hp', He'.
    rewrite !(count_tag_cons _ data evs). simpl length.
    repeat split; lia.
Qed.

(** The aggregator counts every event in [ioc_total], whatever its tag,
    and each of the other counters counts the events of its own tag. *)
Theorem stat_keeper_counts (evs : list StatEvent) :
  ioc_total (stat_keeper evs) = Z.of_nat (length evs) ∧
  ioc_blocked (stat_keeper evs) = count_tag "blocked" evs ∧
  ioc_policy (stat_keeper evs) = count_tag "policy" evs ∧
  ioc_error (stat_keeper evs) = count_tag "error" evs.
Proof.
  unfold stat_keeper. destruct (events_counts evs zero) as (Ht & Hb & Hp & He).
  rewrite Ht, Hb, Hp, He. simpl. repeat split; lia.
Qed.

(** An event with a tag outside {blocked, policy, error} is counted in
    the total only: after it, the total is no longer the sum. *)
Theorem unknown_tag_breaks_balance c data :
  ¬ valid_tag data → balanced c → ¬ balanced (apply_event c data).
Proof.
  unfold valid_tag, balanced. intros Htag Hc.
  destruct (apply_event_counts c data) as (Ht & Hb & Hp & He).
  rewrite Ht, Hb, Hp, He. unfold count_tag.
  rewrite !filter_cons, !filter_nil.
  repeat case_decide; simpl; try lia;
    exfalso; apply Htag;
    match goal with H : type data = _ |- _ => rewrite H end;
    repeat first [ by left | right ].
Qed.

End AggregatorResults.

(** ** More on the pipeline *)

Section PipelineResults.
Import Pipeline.
Local Open Scope nat_scope.

Lemma reachable_run outpath ts base input n fs0 s sched s' :
  reachable outpath ts base input n fs0 s →
  run sched s = Some s' →
  reachable outpath ts base input n fs0 s'.
Proof.
  intros (s0 & sched0 & Hstart & Hrun0) Hrun.
  exists s0, (sched0 ++ sched). split; [done|].
  clear Hstart. revert s0 Hrun0.
  induction sched0 as [|t sched0 IH]; intros s0 Hrun0; simpl in *.
  - by injection Hrun0 as ->.
  - destruct (step t s0) as [s1|]; simpl in *; [|done]. by apply IH.
Qed.

Lemma rows_of_header_rows fieldnames written :
  rows_of (Header fieldnames :: (Row <$> written)) = written.
Proof.
  change (rows_of (Row <$> written) = written).
  induction written as [|d written IH]; [done|].
  change (d :: rows_of (Row <$> written) = d :: written). by rewrite IH.
Qed.

(** At every moment of a run, each output file is its header followed by
    rows, and these rows are the first records submitted to its sink, in
    the order of submission: nothing is written twice, out of order, or
    that was not submitted. *)
Theorem file_rows_are_submitted_prefix outpath ts base input n fs0 s k :
  reachable outpath ts base input n fs0 s →
  ∃ lines,
    fs s !! outputfile outpath ts (role k) base =
      Some (Header (CSVWriter.fieldnames (sink k s)) :: lines) ∧
    lines = Row <$> rows_of (Header (CSVWriter.fieldnames (sink k s)) :: lines) ∧
    rows_of (Header (CSVWriter.fieldnames (sink k s)) :: lines)
      `prefix_of` CSVWriter.submitted (sink k s).
Proof.
  intros Hreach.
  destruct (output_files_stay _ _ _ _ _ _ s k Hreach)
    as (written & taken & Hfile & _ & Hsub).
  exists (Row <$> written). rewrite rows_of_header_rows.
  split; [done|]. split; [done|].
  rewrite Hsub. by eexists.
Qed.

Lemma perform_threads e s : threads (perform e s) = threads s.
Proof. by destruct e. Qed.

(** [main] never touches the state of a worker thread. *)
Lemma main_step_threads s s' : main_step s = Some s' → threads s' = threads s.
Proof.
  intros Hstep. unfold main_step in Hstep.
  destruct (main s) as [effs rows| | |k c| | | | | |e]; simpl in Hstep.
  - destruct effs as [|e effs].
    + destruct rows as [|row rows]; [|destruct (ingest_row row)];
        by injection Hstep as <-.
    + injection Hstep as <-. apply perform_threads.
  - destruct (Queue.all_tasks_done (q s)); [|done]. by injection Hstep as <-.
  - by injection Hstep as <-.
  - destruct (CSVWriter.close c (sink k s)) as [[w c']|]; simpl in Hstep; [|done].
    by injection Hstep as <-.
  - by injection Hstep as <-.
  - destruct (Queue.all_tasks_done (IOCStat.queue (stat s))); [|done].
    by injection Hstep as <-.
  - by injection Hstep as <-.
  - destruct (only_main_alive s); [|done]. by injection Hstep as <-.
  - done.
  - done.
Qed.

(** A dead worker stays dead. *)
Lemma step_dead_worker t s s' i e :
  step t s = Some s' →
  threads s !! i = Some (WkDead e) →
  threads s' !! i = Some (WkDead e).
Proof.
  intros Hstep Hi. destruct t as [|j net|k|]; simpl in Hstep.
  - by rewrite (main_step_threads s s' Hstep).
  - unfold worker in Hstep.
    destruct (threads s !! j) as [w|] eqn:Hj; simpl in Hstep; [|done].
    assert (j ≠ i) as Hne.
    { intros ->. rewrite Hi in Hj. injection Hj as <-. done. }
    assert (∀ w' s1,
              threads (set_threads (<[j:=w']> (threads s)) s1) !! i
              = Some (WkDead e)) as Hgoto.
    { intros w' s1. simpl. by rewrite list_lookup_insert_ne. }
    destruct w as [| |item|[|e' effs]| |e']; simpl in Hstep;
      repeat case_match; simplify_eq; apply Hgoto.
  - destruct (CSVWriter.internal_writer (sink k s) (fs s)) as [[w fs']|];
      simpl in Hstep; [|done].
    by injection Hstep as <-.
  - destruct (IOCStat.stat_keeper (stat s)); simpl in Hstep; [|done].
    by injection Hstep as <-.
Qed.

Lemma run_dead_worker sched s s' i e :
  run sched s = Some s' →
  threads s !! i = Some (WkDead e) →
  threads s' !! i = Some (WkDead e).
Proof.
  revert s. induction sched as [|t sched IH]; intros s Hrun Hi; simpl in Hrun.
  - by injection Hrun as <-.
  - destruct (step t s) as [s1|] eqn:Hstep; simpl in Hrun; [|done].
    apply (IH s1 Hrun). by eapply step_dead_worker.
Qed.

(** Once a worker has died of an exception, the run can never complete:
    the record it held is never acknowledged, so [main] stays in the
    ingestion loop or blocked in [q.join()], whatever is scheduled; the
    shutdown signal is never raised and no sink is ever closed. *)
Theorem dead_worker_blocks_main outpath ts base input n fs0 s i e sched s' :
  reachable outpath ts base input n fs0 s →
  threads s !! i = Some (WkDead e) →
  run sched s = Some s' →
  after_join (main s') = false ∧
  main s' ≠ MDone ∧
  shutdown_event s' = false ∧
  ∀ k, CSVWriter.closed (sink k s') = false.
Proof.
  intros Hreach Hi Hrun.
  pose proof (run_dead_worker sched s s' i e Hrun Hi) as Hi'.
  pose proof (inv_reachable _ _ _ _ _ _ _
                (reachable_run _ _ _ _ _ _ _ _ _ Hreach Hrun)) as Hinv.
  destruct (holding_blocks_join s' i (WkDead e) Hinv Hi' eq_refl) as [_ Hm].
  pose proof Hinv as [_ _ Hsh _ Hk].
  split; [done|]. split; [by destruct (main s')|].
  split; [rewrite Hsh; by destruct (main s')|].
  intros k. destruct (Hk k) as [_ _ _ _ Hcl].
  destruct (CSVWriter.closed (sink k s')); [|done].
  specialize (Hcl eq_refl). apply join_passed_after_join in Hcl. congruence.
Qed.

End PipelineResults.

(** ** No record and no event is lost or invented *)

Section PipelineLedger.
Import Pipeline.
Local Open Scope nat_scope.

(** An effect that hands a record on: to the work queue or to a sink. *)
Definition handover_of (e : effect) : nat :=
  match e with
  | QPut _ | SinkWrite _ _ => 1
  | _ => 0
  end.

(** An effect after which the event of a record is due or reported: the
    record goes to a worker, or its event goes to the aggregator. *)
Definition report_of (e : effect) : nat :=
  match e with
  | QPut _ | StatUpdate _ => 1
  | _ => 0
  end.

Definition handovers (effs : list effect) : nat := sum_list (handover_of <$> effs).
Definition reports (effs : list effect) : nat := sum_list (report_of <$> effs).

(** The rows [main] has not read yet, and what is left of the current
    iteration of its loop. *)
Definition main_rows (m : main_pc) : nat :=
  match m with MIngest _ rows => length rows | _ => 0 end.

Definition main_effs (m : main_pc) : list effect :=
  match m with MIngest effs _ => effs | _ => [] end.

(** The records a worker still has to hand to a sink. A dead worker keeps
    the record it died with. *)
Definition carried (w : worker_pc) : nat :=
  match w with
  | WkCall _ | WkDead _ => 1
  | WkEffects effs => handovers effs
  | WkLoop | WkGet | WkExit => 0
  end.

(** The events a worker still has to report. *)
Definition unreported (w : worker_pc) : nat :=
  match w with
  | WkCall _ | WkDead _ => 1
  | WkEffects effs => reports effs
  | WkLoop | WkGet | WkExit => 0
  end.

Definition over_workers (f : worker_pc → nat) (ws : list worker_pc) : nat :=
  sum_list (f <$> ws).

(** The records submitted to the three sinks so far. *)
Definition delivered (s : state) : nat :=
  length (CSVWriter.submitted (csv_blocked s)) +
  length (CSVWriter.submitted (csv_policy s)) +
  length (CSVWriter.submitted (csv_error s)).

(** Every input row is in exactly one place: not read yet, about to be
    handed on by [main], on the work queue, with a worker, or submitted to
    a sink. *)
Definition accounted_records (s : state) : nat :=
  main_rows (main s) + handovers (main_effs (main s)) +
  length (Queue.items (q s)) + over_workers carried (threads s) +
  delivered s.

Definition applying (kp : IOCStat.keeper_pc) : nat :=
  match kp with IOCStat.SkApply _ => 1 | _ => 0 end.

(** Every input row has exactly one event: still to come, on the queue of
    the aggregator, being applied, or counted in [ioc_total]. *)
Definition accounted_events (s : state) : Z :=
  (Z.of_nat (main_rows (main s) + reports (main_effs (main s)) +
             length (Queue.items (q s)) + over_workers unreported (threads s) +
             length (Queue.items (IOCStat.queue (stat s))) +
             applying (IOCStat.keeper (stat s)))
   + Aggregator.ioc_total (IOCStat.count (stat s)))%Z.

Lemma over_workers_insert f ws i w w' :
  ws !! i = Some w →
  over_workers f (<[i := w']> ws) + f w = over_workers f ws + f w'.
Proof.
  unfold over_workers. revert i.
  induction ws as [|x ws IH]; intros [|i] Hi; simpl in *; try done.
  - injection Hi as ->. lia.
  - specialize (IH i Hi). unfold fmap in IH. lia.
Qed.

Lemma holding_zero_carried w :
  holding w = 0 → carried w = 0 ∧ unreported w = 0.
Proof. by destruct w. Qed.

Lemma over_workers_idle f ws :
  Forall (fun w => f w = 0) ws → over_workers f ws = 0.
Proof.
  unfold over_workers. induction 1 as [|w ws Hw _ IH]; simpl; [done|].
  unfold fmap in IH. lia.
Qed.

(** Each iteration of the ingestion loop hands its row on once and
    accounts for one event. *)
Lemma ingest_row_counts row effs :
  ingest_row row = Ok effs → handovers effs = 1 ∧ reports effs = 1.
Proof.
  unfold ingest_row. destruct (row !! "ThreatType") as [v|]; [|done].
  destruct (supported v); by intros [= <-].
Qed.

(** So does each call of [do_work] that returns. *)
Lemma do_work_counts net item item' effs :
  Worker.do_work net item = Ok (item', effs) →
  handovers effs = 1 ∧ reports effs = 1.
Proof.
  unfold Worker.do_work. intros Hdo.
  destruct (getitem_str item "Indicator") as [ioc|]; simpl in Hdo; [|done].
  destruct (Classifier.rlcheck net ioc) as [ret|]; simpl in Hdo; [|done].
  destruct (Classifier.err_nonzero (Classifier.error ret));
    [|destruct (Classifier.blocked ret =? 1)%Z];
    by injection Hdo as <- <-.
Qed.

(** What one call on a shared object moves. *)
Lemma perform_accounts e s :
  main (perform e s) = main s ∧
  threads (perform e s) = threads s ∧
  length (Queue.items (q (perform e s))) + delivered (perform e s)
    = length (Queue.items (q s)) + delivered s + handover_of e ∧
  length (Queue.items (q (perform e s))) +
    length (Queue.items (IOCStat.queue (stat (perform e s))))
    = length (Queue.items (q s)) +
      length (Queue.items (IOCStat.queue (stat s))) + report_of e ∧
  IOCStat.keeper (stat (perform e s)) = IOCStat.keeper (stat s) ∧
  IOCStat.count (stat (perform e s)) = IOCStat.count (stat s).
Proof.
  unfold delivered.
  destruct e as [err ioc|data|k item|item]; [| |destruct k|]; simpl;
    repeat split; try done; rewrite ?length_app; simpl; lia.
Qed.

Ltac ledger_arith :=
  unfold delivered, handovers, reports in *; simpl in *; unfold fmap in *;
  split; lia.

Lemma main_step_conserves s s' :
  main_step s = Some s' →
  (∀ e, main s' ≠ MDead e) →
  accounted_records s' = accounted_records s ∧
  accounted_events s' = accounted_events s.
Proof.
  intros Hstep Halive. unfold main_step in Hstep.
  unfold accounted_records, accounted_events.
  destruct (main s) as [effs rows| | |k c| | | | | |e] eqn:Hm; simpl in Hstep.
  - destruct effs as [|e effs].
    + destruct rows as [|row rows].
      * injection Hstep as <-. simpl. done.
      * destruct (ingest_row row) as [effs|e] eqn:Hrow.
        -- injection Hstep as <-.
           destruct (ingest_row_counts row effs Hrow) as [Hh Hr].
           simpl. rewrite Hh, Hr. unfold handovers, reports. simpl.
           ledger_arith.
        -- injection Hstep as <-. by destruct (Halive e).
    + injection Hstep as <-.
      destruct (perform_accounts e s) as (_ & Hth & Hrec & Hev & Hkp & Hcnt).
      unfold delivered in *. simpl. rewrite Hth, Hkp, Hcnt.
      unfold handovers, reports in *. simpl.
      ledger_arith.
  - destruct (Queue.all_tasks_done (q s)); [|done]. by injection Hstep as <-.
  - by injection Hstep as <-.
  - destruct (CSVWriter.close c (sink k s)) as [[w c']|] eqn:Hclose;
      simpl in Hstep; [|done].
    injection Hstep as <-.
    assert (CSVWriter.submitted w = CSVWriter.submitted (sink k s)) as Hsub.
    { destruct c; simpl in Hclose; repeat case_match; by simplify_eq. }
    unfold delivered.
    destruct c' as [c'|]; destruct k; simpl in *; rewrite Hsub; done.
  - by injection Hstep as <-.
  - destruct (Queue.all_tasks_done (IOCStat.queue (stat s))); [|done].
    by injection Hstep as <-.
  - by injection Hstep as <-.
  - destruct (only_main_alive s); [|done]. by injection Hstep as <-.
  - done.
  - done.
Qed.

Lemma worker_conserves net i s s' :
  inv s →
  worker net i s = Some s' →
  accounted_records s' = accounted_records s ∧
  accounted_events s' = accounted_events s.
Proof.
  intros Hinv Hstep. unfold worker in Hstep.
  destruct (threads s !! i) as [w|] eqn:Hi; simpl in Hstep; [|done].
  pose proof (fun w' => over_workers_insert carried (threads s) i w w' Hi) as Hc.
  pose proof (fun w' => over_workers_insert unreported (threads s) i w w' Hi) as Hu.
  unfold accounted_records, accounted_events.
  destruct w as [| |item|[|e effs]| |e]; simpl in Hstep.
  - injection Hstep as <-. simpl.
    specialize (Hc (if shutdown_event s then WkExit else WkGet)).
    specialize (Hu (if shutdown_event s then WkExit else WkGet)).
    destruct (shutdown_event s); simpl in *; ledger_arith.
  - unfold Queue.get in Hstep.
    destruct (Queue.items (q s)) as [|item rest] eqn:Hitems;
      injection Hstep as <-; simpl; rewrite ?Hitems.
    + specialize (Hc WkLoop). specialize (Hu WkLoop). simpl in *.
      ledger_arith.
    + specialize (Hc (WkCall item)). specialize (Hu (WkCall item)). simpl in *.
      ledger_arith.
  - destruct (Worker.do_work net item) as [[item' effs]|e] eqn:Hdo;
      injection Hstep as <-; simpl.
    + destruct (do_work_counts net item item' effs Hdo) as [Hh Hr].
      specialize (Hc (WkEffects effs)). specialize (Hu (WkEffects effs)).
      simpl in *. ledger_arith.
    + specialize (Hc (WkDead e)). specialize (Hu (WkDead e)). simpl in *.
      ledger_arith.
  - destruct (holding_blocks_join s i (WkEffects []) Hinv Hi eq_refl) as [Hpos _].
    unfold Queue.task_done in Hstep.
    destruct (Queue.unfinished_tasks (q s)) as [|u]; [lia|].
    injection Hstep as <-. simpl.
    specialize (Hc WkLoop). specialize (Hu WkLoop). simpl in *.
    ledger_arith.
  - injection Hstep as <-.
    destruct (perform_accounts e s) as (Hmain & Hth & Hrec & Hev & Hkp & Hcnt).
    specialize (Hc (WkEffects effs)). specialize (Hu (WkEffects effs)).
    unfold delivered in *. simpl in *. rewrite Hmain, Hkp, Hcnt.
    unfold handovers, reports in *. simpl in *.
    ledger_arith.
  - done.
  - done.
Qed.

Lemma writer_conserves k s w fs' :
  CSVWriter.internal_writer (sink k s) (fs s) = Some (w, fs') →
  accounted_records (set_fs fs' (set_sink k w s)) = accounted_records s ∧
  accounted_events (set_fs fs' (set_sink k w s)) = accounted_events s.
Proof.
  intros Hstep.
  assert (CSVWriter.submitted w = CSVWriter.submitted (sink k s)) as Hsub.
  { unfold CSVWriter.internal_writer in Hstep.
    repeat case_match; by simplify_eq. }
  unfold accounted_records, accounted_events, delivered.
  destruct k; simpl in *; rewrite Hsub; done.
Qed.

Lemma stat_keeper_conserves s st :
  IOCStat.stat_keeper (stat s) = Some st →
  accounted_records (set_stat st s) = accounted_records s ∧
  accounted_events (set_stat st s) = accounted_events s.
Proof.
  intros Hstep. split; [done|].
  unfold accounted_events. simpl.
  unfold IOCStat.stat_keeper in Hstep.
  destruct (IOCStat.keeper (stat s)) as [| |data| | |e] eqn:Hkp.
  - injection Hstep as <-. simpl.
    destruct (IOCStat.finished (stat s)); simpl; lia.
  - unfold Queue.get in Hstep.
    destruct (Queue.items (IOCStat.queue (stat s))) as [|data rest] eqn:Hitems;
      injection Hstep as <-; simpl; rewrite ?Hitems; simpl; lia.
  - injection Hstep as <-.
    destruct (apply_event_counts (IOCStat.count (stat s)) data) as (Ht & _).
    simpl in *. lia.
  - unfold Queue.task_done in Hstep.
    destruct (Queue.unfinished_tasks (IOCStat.queue (stat s)));
      injection Hstep as <-; simpl; lia.
  - done.
  - done.
Qed.

(** No step loses or invents a record or an event, unless [main] dies. *)
Lemma step_conserves t s s' :
  inv s →
  step t s = Some s' →
  (∀ e, main s' ≠ MDead e) →
  accounted_records s' = accounted_records s ∧
  accounted_events s' = accounted_events s.
Proof.
  intros Hinv Hstep Halive. destruct t as [|i net|k|]; simpl in Hstep.
  - by apply main_step_conserves.
  - by eapply worker_conserves.
  - destruct (CSVWriter.internal_writer (sink k s) (fs s)) as [[w fs']|] eqn:Hw;
      simpl in Hstep; [|done].
    injection Hstep as <-. by apply writer_conserves.
  - destruct (IOCStat.stat_keeper (stat s)) as [st|] eqn:Hst;
      simpl in Hstep; [|done].
    injection Hstep as <-. by apply stat_keeper_conserves.
Qed.

(** Once [main] has died, it stays dead. *)
Lemma step_main_dead t s s' e :
  step t s = Some s' → main s = MDead e → main s' = MDead e.
Proof.
  intros Hstep Hm. destruct t as [|i net|k|]; simpl in Hstep.
  - unfold main_step in Hstep. by rewrite Hm in Hstep.
  - unfold worker in Hstep.
    destruct (threads s !! i) as [w|]; simpl in Hstep; [|done].
    destruct w as [| |item|[|e' effs]| |e']; simpl in Hstep;
      repeat case_match; simplify_eq; simpl; try done.
    by destruct (perform_accounts e' s) as (-> & _).
  - destruct (CSVWriter.internal_writer (sink k s) (fs s)) as [[w fs']|];
      simpl in Hstep; [|done].
    by injection Hstep as <-.
  - destruct (IOCStat.stat_keeper (stat s)); simpl in Hstep; [|done].
    by injection Hstep as <-.
Qed.

Lemma run_main_dead sched s s' e :
  run sched s = Some s' → main s = MDead e → main s' = MDead e.
Proof.
  revert s. induction sched as [|t sched IH]; intros s Hrun Hm; simpl in Hrun.
  - by injection Hrun as <-.
  - destruct (step t s) as [s1|] eqn:Hstep; simpl in Hrun; [|done].
    apply (IH s1 Hrun). by eapply step_main_dead.
Qed.

Lemma run_conserves sched s s' :
  inv s →
  run sched s = Some s' →
  (∀ e, main s' ≠ MDead e) →
  accounted_records s' = accounted_records s ∧
  accounted_events s' = accounted_events s.
Proof.
  revert s. induction sched as [|t sched IH]; intros s Hinv Hrun Halive;
    simpl in Hrun.
  - by injection Hrun as <-.
  - destruct (step t s) as [s1|] eqn:Hstep; simpl in Hrun; [|done].
    destruct (IH s1 (inv_step t s s1 Hinv Hstep) Hrun Halive) as [-> ->].
    apply (step_conserves t s s1 Hinv Hstep).
    intros e He. apply (Halive e). by eapply run_main_dead.
Qed.

(** As long as [main] is alive, every input row is accounted for exactly
    once, and so is its event. *)
Lemma ledger outpath ts base input n fs0 s :
  reachable outpath ts base input n fs0 s →
  (∀ e, main s ≠ MDead e) →
  accounted_records s = length (rows input) ∧
  accounted_events s = Z.of_nat (length (rows input)).
Proof.
  intros (s0 & sched & Hstart & Hrun) Halive.
  destruct (run_conserves sched s0 s (inv_startup _ _ _ _ _ _ _ Hstart)
              Hrun Halive) as [-> ->].
  unfold startup in Hstart. destruct (rows input) as [|row rest]; [done|].
  simpl in Hstart. injection Hstart as <-.
  unfold accounted_records, accounted_events, delivered. simpl.
  rewrite !over_workers_idle by (apply Forall_replicate; done).
  ledger_arith.
Qed.

(** When the run has completed, each output file holds its header and
    every record submitted to its sink, and the three files together hold
    as many rows as the input: no row is lost and none is written twice. *)
Theorem completed_run_keeps_every_row outpath ts base input n fs0 s :
  reachable outpath ts base input n fs0 s →
  main s = MDone →
  (∀ k, fs s !! outputfile outpath ts (role k) base =
          Some (Header (CSVWriter.fieldnames (sink k s))
                :: (Row <$> CSVWriter.submitted (sink k s)))) ∧
  length (CSVWriter.submitted (csv_blocked s)) +
  length (CSVWriter.submitted (csv_policy s)) +
  length (CSVWriter.submitted (csv_error s)) = length (rows input).
Proof.
  intros Hreach Hm.
  pose proof (inv_reachable _ _ _ _ _ _ _ Hreach) as Hinv.
  split.
  - intros k.
    destruct (output_files_stay _ _ _ _ _ _ s k Hreach)
      as (written & taken & Hfile & Htaken & Hsub).
    destruct Hinv as [_ _ _ _ Hk]. destruct (Hk k) as [Hc _ Hj _ _].
    rewrite Hm in Hj. specialize (Hj eq_refl). rewrite Hj in Hc.
    assert (Queue.items (CSVWriter.queue (sink k s)) = []) as Hitems
      by (destruct (Queue.items (CSVWriter.queue (sink k s)));
          [done | simpl in Hc; lia]).
    assert (owed (CSVWriter.writer (sink k s)) = 0) as Howed by lia.
    assert (taken = []) as ->
      by (destruct (CSVWriter.writer (sink k s)); simpl in *; done).
    rewrite Hitems, !app_nil_r in Hsub. by rewrite Hsub.
  - destruct (ledger _ _ _ _ _ _ s Hreach) as [Hrec _]; [by rewrite Hm|].
    destruct (inv_drained s Hinv) as (Hitems & _ & Hidle); [by rewrite Hm|].
    unfold accounted_records, delivered in Hrec.
    rewrite Hm, Hitems in Hrec. simpl in Hrec.
    rewrite over_workers_idle in Hrec; [lia|].
    eapply Forall_impl; [exact Hidle|]. intros w Hw.
    by apply holding_zero_carried.
Qed.

End PipelineLedger.

(** ** What the aggregator and the workers receive *)

Section PipelineBooks.
Import Pipeline Aggregator.
Local Open Scope nat_scope.

(** [main] is past the [self.queue.join()] of [stat.close()]. *)
Definition stat_joined (m : main_pc) : bool :=
  match m with
  | MStatFinished | MWait | MDone => true
  | _ => false
  end.

(** The keeper thread took an event and has not acknowledged it. *)
Definition keeper_owed (kp : IOCStat.keeper_pc) : nat :=
  match kp with
  | IOCStat.SkApply _ | IOCStat.SkDone => 1
  | _ => 0
  end.

Definition keeper_ok (kp : IOCStat.keeper_pc) : Prop :=
  match kp with
  | IOCStat.SkApply data => valid_tag data
  | IOCStat.SkDead _ => False
  | _ => True
  end.

(** An effect reports a known tag and queues a row of a supported type. *)
Definition effect_ok (e : effect) : Prop :=
  match e with
  | StatUpdate data => valid_tag data
  | QPut item => supported_row item = true
  | _ => True
  end.

Definition worker_ok (w : worker_pc) : Prop :=
  match w with
  | WkCall item => supported_row item = true
  | WkEffects effs => Forall effect_ok effs
  | _ => True
  end.

Record books (s : state) : Prop := {
  bk_count :
    Queue.unfinished_tasks (IOCStat.queue (stat s)) =
    length (Queue.items (IOCStat.queue (stat s))) +
    keeper_owed (IOCStat.keeper (stat s));
  bk_joined :
    stat_joined (main s) = true →
    Queue.unfinished_tasks (IOCStat.queue (stat s)) = 0;
  bk_queue : Forall valid_tag (Queue.items (IOCStat.queue (stat s)));
  bk_keeper : keeper_ok (IOCStat.keeper (stat s));
  bk_balanced : balanced (IOCStat.count (stat s));
  bk_main : Forall effect_ok (main_effs (main s));
  bk_workers : Forall worker_ok (threads s);
  bk_q : Forall (fun item => supported_row item = true) (Queue.items (q s))
}.

Lemma ingest_row_ok row effs : ingest_row row = Ok effs → Forall effect_ok effs.
Proof.
  unfold ingest_row. destruct (row !! "ThreatType") as [v|] eqn:Hv; [|done].
  destruct (supported v) eqn:Hsup; intros [= <-]; repeat constructor.
  simpl. unfold supported_row. by rewrite Hv.
Qed.

Lemma do_work_ok net item item' effs :
  Worker.do_work net item = Ok (item', effs) → Forall effect_ok effs.
Proof.
  unfold Worker.do_work. intros Hdo.
  destruct (getitem_str item "Indicator") as [ioc|]; simpl in Hdo; [|done].
  destruct (Classifier.rlcheck net ioc) as [ret|]; simpl in Hdo; [|done].
  destruct (Classifier.err_nonzero (Classifier.error ret));
    [|destruct (Classifier.blocked ret =? 1)%Z];
    injection Hdo as <- <-; repeat constructor;
    unfold valid_tag; simpl; repeat first [ by left | right ].
Qed.

Lemma not_after_join_stat_joined m : after_join m = false → stat_joined m = false.
Proof. by destruct m. Qed.

Lemma books_perform s e :
  books s → stat_joined (main s) = false → effect_ok e → books (perform e s).
Proof.
  intros [Hc Hj Hq Hk Hb Hm Hw Hqq] Hnj He.
  destruct e as [err ioc|data|k item|item]; simpl.
  - done.
  - split; simpl; try done.
    + rewrite length_app, Hc. simpl. lia.
    + by rewrite Hnj.
    + apply Forall_app. split; [done|]. by constructor.
  - split; try done; by destruct k.
  - split; simpl; try done.
    apply Forall_app. split; [done|]. by constructor.
Qed.

Lemma books_main s s' : inv s → books s → main_step s = Some s' → books s'.
Proof.
  intros Hinv Hbk Hstep. pose proof Hbk as [Hc Hj Hq Hk Hb Hm Hw Hqq].
  unfold main_step in Hstep.
  destruct (main s) as [effs rows| | |k c| | | | | |e] eqn:Hpc; simpl in Hstep.
  - destruct effs as [|e effs].
    + destruct rows as [|row rows].
      * injection Hstep as <-. split; simpl; done.
      * destruct (ingest_row row) as [effs|e] eqn:Hrow; injection Hstep as <-.
        -- split; simpl; try done. by eapply ingest_row_ok.
        -- split; simpl; done.
    + injection Hstep as <-. simpl in Hm.
      apply Forall_cons in Hm as [He Heffs].
      destruct (books_perform s e Hbk) as [Hc' Hj' Hq' Hk' Hb' Hm' Hw' Hqq'];
        [by rewrite Hpc | done |].
      split; simpl; done.
  - destruct (Queue.all_tasks_done (q s)); [|done].
    injection Hstep as <-. split; simpl; done.
  - injection Hstep as <-. split; simpl; done.
  - destruct (CSVWriter.close c (sink k s)) as [[w c']|]; simpl in Hstep; [|done].
    injection Hstep as <-. split; simpl; try done.
    + by destruct c' as [c'|]; [|destruct k].
    + by destruct c' as [c'|]; [|destruct k].
  - injection Hstep as <-. split; simpl; done.
  - destruct (Queue.all_tasks_done (IOCStat.queue (stat s))) eqn:Hdone; [|done].
    injection Hstep as <-. apply bool_decide_eq_true in Hdone.
    split; simpl; done.
  - injection Hstep as <-. split; simpl; done.
  - destruct (only_main_alive s); [|done].
    injection Hstep as <-. split; simpl; done.
  - done.
  - done.
Qed.

Lemma books_worker net i s s' :
  inv s → books s → worker net i s = Some s' → books s'.
Proof.
  intros Hinv Hbk Hstep. pose proof Hbk as [Hc Hj Hq Hk Hb Hm Hw Hqq].
  unfold worker in Hstep.
  destruct (threads s !! i) as [w|] eqn:Hi; simpl in Hstep; [|done].
  assert (worker_ok w) as Hok by (by eapply Forall_lookup_1).
  destruct w as [| |item|[|e effs]| |e]; simpl in Hstep.
  - injection Hstep as <-. split; simpl; try done.
    apply Forall_insert; [done|]. by destruct (shutdown_event s).
  - unfold Queue.get in Hstep.
    destruct (Queue.items (q s)) as [|item rest] eqn:Hitems;
      injection Hstep as <-.
    + split; simpl; rewrite ?Hitems; try done. by apply Forall_insert.
    + apply Forall_cons in Hqq as [Hitem Hrest].
      split; simpl; try done. by apply Forall_insert.
  - destruct (Worker.do_work net item) as [[item' effs]|e] eqn:Hdo;
      injection Hstep as <-; split; simpl; try done;
      apply Forall_insert; try done.
    simpl. by eapply do_work_ok.
  - unfold Queue.task_done in Hstep.
    destruct (Queue.unfinished_tasks (q s)); injection Hstep as <-;
      split; simpl; try done; by apply Forall_insert.
  - destruct (holding_blocks_join s i (WkEffects (e :: effs)) Hinv Hi eq_refl)
      as [_ Hnj].
    injection Hstep as <-. simpl in Hok.
    apply Forall_cons in Hok as [He Heffs].
    destruct (books_perform s e Hbk) as [Hc' Hj' Hq' Hk' Hb' Hm' Hw' Hqq'];
      [by apply not_after_join_stat_joined | done |].
    split; simpl; try done.
    rewrite <- (perform_threads e s). by apply Forall_insert.
  - done.
  - done.
Qed.

Lemma books_stat_keeper s st :
  books s → IOCStat.stat_keeper (stat s) = Some st → books (set_stat st s).
Proof.
  intros [Hc Hj Hq Hk Hb Hm Hw Hqq] Hstep.
  unfold IOCStat.stat_keeper in Hstep.
  destruct (IOCStat.keeper (stat s)) as [| |data| | |e] eqn:Hkp; simpl in *.
  - injection Hstep as <-. split; simpl; try done.
    + rewrite Hc. by destruct (IOCStat.finished (stat s)).
    + by destruct (IOCStat.finished (stat s)).
  - unfold Queue.get in Hstep.
    destruct (Queue.items (IOCStat.queue (stat s))) as [|data rest] eqn:Hitems;
      injection Hstep as <-.
    + split; simpl; rewrite ?Hitems; done.
    + apply Forall_cons in Hq as [Hdata Hrest].
      split; simpl; try done. rewrite Hc. simpl. lia.
  - injection Hstep as <-. split; simpl; try done.
    by apply apply_event_balanced.
  - unfold Queue.task_done in Hstep. rewrite Hc, Nat.add_1_r in Hstep.
    injection Hstep as <-. split; simpl; try done.
    intros Hm'. specialize (Hj Hm'). lia.
  - done.
  - done.
Qed.

Lemma books_step t s s' : inv s → books s → step t s = Some s' → books s'.
Proof.
  intros Hinv Hbk Hstep. destruct t as [|i net|k|]; simpl in Hstep.
  - by eapply books_main.
  - by eapply books_worker.
  - destruct (CSVWriter.internal_writer (sink k s) (fs s)) as [[w fs']|];
      simpl in Hstep; [|done].
    injection Hstep as <-. destruct Hbk. split; done.
  - destruct (IOCStat.stat_keeper (stat s)) as [st|] eqn:Hst;
      simpl in Hstep; [|done].
    injection Hstep as <-. by apply books_stat_keeper.
Qed.

Lemma books_reachable outpath ts base input n fs0 s :
  reachable outpath ts base input n fs0 s → books s.
Proof.
  intros (s0 & sched & Hstart & Hrun).
  assert (inv s0) as Hinv by (by eapply inv_startup).
  assert (books s0) as Hbk.
  { unfold startup in Hstart. destruct (rows input); simpl in Hstart; [done|].
    injection Hstart as <-. split; simpl; try done.
    by apply Forall_replicate. }
  clear Hstart. revert s0 Hinv Hbk Hrun.
  induction sched as [|t sched IH]; intros s0 Hinv Hbk Hrun; simpl in Hrun.
  - by injection Hrun as <-.
  - destruct (step t s0) as [s1|] eqn:Hstep; simpl in Hrun; [|done].
    apply (IH s1); [by eapply inv_step | by eapply books_step | done].
Qed.

(** Only rows of a supported type are ever on the work queue or handed to
    [do_work], hence to the classifier. *)
Theorem only_supported_rows_reach_do_work outpath ts base input n fs0 s item :
  reachable outpath ts base input n fs0 s →
  item ∈ Queue.items (q s) ∨ (∃ i, threads s !! i = Some (WkCall item)) →
  ∃ t, item !! "ThreatType" = Some (VStr t) ∧ t ∈ SUPPORTED_THREAT_TYPES.
Proof.
  intros Hreach Hitem. apply supported_row_spec.
  pose proof (books_reachable _ _ _ _ _ _ _ Hreach) as [_ _ _ _ _ _ Hw Hqq].
  destruct Hitem as [Hin|[i Hi]].
  - by apply (proj1 (Forall_forall _ _) Hqq).
  - by apply (Forall_lookup_1 _ _ _ _ Hw Hi).
Qed.

(** When the run has completed, the aggregator has applied exactly one
    event for each input row, and its total is the sum of the three other
    counters. *)
Theorem completed_run_counts_every_row outpath ts base input n fs0 s :
  reachable outpath ts base input n fs0 s →
  main s = MDone →
  ioc_total (IOCStat.stats (stat s)) = Z.of_nat (length (rows input)) ∧
  balanced (IOCStat.stats (stat s)) ∧
  Queue.items (IOCStat.queue (stat s)) = [].
Proof.
  intros Hreach Hm.
  pose proof (inv_reachable _ _ _ _ _ _ _ Hreach) as Hinv.
  pose proof (books_reachable _ _ _ _ _ _ _ Hreach) as [Hc Hj _ _ Hb _ _ _].
  rewrite Hm in Hj. specialize (Hj eq_refl). rewrite Hj in Hc.
  assert (Queue.items (IOCStat.queue (stat s)) = []) as Hitems
    by (destruct (Queue.items (IOCStat.queue (stat s)));
        [done | simpl in Hc; lia]).
  assert (applying (IOCStat.keeper (stat s)) = 0) as Happ
    by (destruct (IOCStat.keeper (stat s)); simpl in *; lia).
  split; [|done].
  destruct (ledger _ _ _ _ _ _ s Hreach) as [_ Hev]; [by rewrite Hm|].
  destruct (inv_drained s Hinv) as (Hq & _ & Hidle); [by rewrite Hm|].
  unfold accounted_events in Hev.
  rewrite Hm, Hq, Hitems, Happ in Hev. simpl in Hev.
  rewrite over_workers_idle in Hev; [unfold IOCStat.stats; lia|].
  eapply Forall_impl; [exact Hidle|]. intros w Hw.
  by apply holding_zero_carried.
Qed.

End PipelineBooks.

(** ** The writer threads and the columns of the rows *)

Section PipelineFields.
Import Pipeline.
Local Open Scope nat_scope.












Section WithFieldnames.
Variable fieldnames : list string.
Hypothesis has_risklevel : "BC_RiskLevel" ∈ fieldnames.
Hypothesis has_category : "BC_Category" ∈ fieldnames.










End WithFieldnames.



(** No step of any thread revives a writer thread. *)
Lemma step_dead_writer t s s' k e :
  step t s = Some s' →
  CSVWriter.writer (sink k s) = CSVWriter.WrDead e →
  CSVWriter.writer (sink k s') = CSVWriter.WrDead e.
Proof.
  intros Hstep Hdead.
  assert (∀ e0, CSVWriter.writer (sink k (perform e0 s)) = CSVWriter.WrDead e)
    as Hperform.
  { intros [| |k' item|]; try done. simpl.
    destruct (decide (k = k')) as [<-|Hne].
    - by rewrite sink_set_sink_eq.
    - by rewrite sink_set_sink_ne. }
  destruct t as [|i net|k'|]; simpl in Hstep.
  - unfold main_step in Hstep.
    destruct (main s) as [effs rows| | |k' c| | | | | |e']; simpl in Hstep.
    + destruct effs as [|e0 effs].
      * destruct rows as [|row rows]; [|destruct (ingest_row row)];
          injection Hstep as <-; by destruct k.
      * injection Hstep as <-.
        change (sink k (set_main ?m ?s0)) with (sink k s0). apply Hperform.
    + destruct (Queue.all_tasks_done (q s)); [|done].
      injection Hstep as <-. by destruct k.
    + injection Hstep as <-. by destruct k.
    + destruct (CSVWriter.close c (sink k' s)) as [[w c']|] eqn:Hclose;
        simpl in Hstep; [|done].
      injection Hstep as <-.
      assert (CSVWriter.writer w = CSVWriter.writer (sink k' s)) as Hpc.
      { destruct c; simpl in Hclose; repeat case_match; by simplify_eq. }
      change (sink k (set_main ?m ?s0)) with (sink k s0).
      destruct (decide (k = k')) as [->|Hne].
      * rewrite sink_set_sink_eq. by rewrite Hpc.
      * by rewrite sink_set_sink_ne.
    + injection Hstep as <-. by destruct k.
    + destruct (Queue.all_tasks_done (IOCStat.queue (stat s))); [|done].
      injection Hstep as <-. by destruct k.
    + injection Hstep as <-. by destruct k.
    + destruct (only_main_alive s); [|done].
      injection Hstep as <-. by destruct k.
    + done.
    + done.
  - unfold worker in Hstep.
    destruct (threads s !! i) as [w|]; simpl in Hstep; [|done].
    destruct w as [| |item|[|e0 effs]| |e0]; simpl in Hstep;
      repeat case_match; simplify_eq; try (by destruct k).
    apply (Hperform e0).
  - destruct (CSVWriter.internal_writer (sink k' s) (fs s)) as [[w fs']|] eqn:Hw;
      simpl in Hstep; [|done].
    injection Hstep as <-.
    change (sink k (set_fs fs' ?s0)) with (sink k s0).
    destruct (decide (k = k')) as [<-|Hne].
    + unfold CSVWriter.internal_writer in Hw. by rewrite Hdead in Hw.
    + by rewrite sink_set_sink_ne.
  - destruct (IOCStat.stat_keeper (stat s)); simpl in Hstep; [|done].
    injection Hstep as <-. by destruct k.
Qed.

Lemma run_dead_writer sched s s' k e :
  run sched s = Some s' →
  CSVWriter.writer (sink k s) = CSVWriter.WrDead e →
  CSVWriter.writer (sink k s') = CSVWriter.WrDead e.
Proof.
  revert s. induction sched as [|t sched IH]; intros s Hrun Hdead; simpl in Hrun.
  - by injection Hrun as <-.
  - destruct (step t s) as [s1|] eqn:Hstep; simpl in Hrun; [|done].
    apply (IH s1 Hrun). by eapply step_dead_writer.
Qed.

(** Once the writer thread of a sink has died, which [writerow] makes it do
    on a record with a column that the header does not name, the run can
    never complete: the record it took is never acknowledged, so
    [close()] of that sink stays blocked in [self.queue.join()], whatever
    is scheduled; the file is never closed and [main] never finishes. *)
Theorem dead_writer_blocks_main outpath ts base input n fs0 s k e sched s' :
  reachable outpath ts base input n fs0 s →
  CSVWriter.writer (sink k s) = CSVWriter.WrDead e →
  run sched s = Some s' →
  0 < Queue.unfinished_tasks (CSVWriter.queue (sink k s')) ∧
  CSVWriter.finished (sink k s') = false ∧
  CSVWriter.closed (sink k s') = false ∧
  main s' ≠ MDone.
Proof.
  intros Hreach Hdead Hrun.
  pose proof (run_dead_writer sched s s' k e Hrun Hdead) as Hdead'.
  pose proof (inv_reachable _ _ _ _ _ _ _
                (reachable_run _ _ _ _ _ _ _ _ _ Hreach Hrun)) as [_ _ _ _ Hk].
  destruct (Hk k) as [Hc _ Hj Hfin Hcl].
  rewrite Hdead' in Hc. simpl in Hc.
  assert (0 < Queue.unfinished_tasks (CSVWriter.queue (sink k s'))) as Hpos by lia.
  assert (join_passed k (main s') = false) as Hnot.
  { destruct (join_passed k (main s')); [|done]. specialize (Hj eq_refl). lia. }
  split; [done|]. rewrite Hnot in Hfin, Hcl.
  split; [by destruct (CSVWriter.finished (sink k s')); [specialize (Hfin eq_refl)|]|].
  split; [by destruct (CSVWriter.closed (sink k s')); [specialize (Hcl eq_refl)|]|].
  intros Hdone. by rewrite Hdone in Hnot.
Qed.

End PipelineFields.

(** ** More on the single-threaded script *)

Section LegacyResults.
Import Classifier.

Lemma legacy_categories_loop cats (ret : Legacy.ret_t) (ret' : ClassificationResult) :
  Legacy.error ret = Some 0%Z →
  Legacy.risklevel ret = None →
  Legacy.blocked ret = Some (blocked ret') →
  Legacy.error (foldl Legacy.categories_step ret cats) = Some 0%Z ∧
  Legacy.risklevel (foldl Legacy.categories_step ret cats) = None ∧
  Legacy.blocked (foldl Legacy.categories_step ret cats) =
    Some (blocked (foldl categories_step ret' cats)) ∧
  Legacy.category (foldl Legacy.categories_step ret cats) =
    Legacy.category ret ++ (id <$> cats).
Proof.
  revert ret ret'. induction cats as [|cat cats IH]; intros ret ret' He Hr Hb; simpl.
  - by rewrite app_nil_r.
  - destruct (IH (Legacy.categories_step ret cat) (categories_step ret' cat))
      as (He' & Hr' & Hb' & Hc'); try done.
    + unfold Legacy.categories_step, categories_step. simpl.
      by destruct (py_in (id cat) BLOCKED_CATEGORY_IDS).
    + rewrite He', Hr', Hb', Hc'. simpl. by rewrite <- (assoc_L (++)).
Qed.

(** The dict that [rlcheck] of [rlcheck.py] returns for a 200 answer. *)
Lemma legacy_rlcheck_ok net ioc r :
  net (tex_api_url +:+ ioc) = Responded r →
  status_code r = 200%Z →
  ∃ old new,
    Legacy.rlcheck net ioc = Ok old ∧ rlcheck net ioc = Ok new ∧
    Legacy.error old = Some 0%Z ∧
    Legacy.blocked old = Some (blocked new) ∧
    Legacy.risklevel old = response_level (json r) ∧
    Legacy.category old = id <$> response_categories (json r).
Proof.
  intros Hnet Hst. exists (Legacy.on_ok (json r)), (interpret r).
  split; [unfold Legacy.rlcheck; by rewrite Hnet, Hst|].
  split; [by apply rlcheck_responded|].
  unfold interpret. rewrite Hst. simpl. rewrite on_ok_eq, after_categories_eq.
  set (start := set_category [] (set_blocked 0 (set_error (ErrCode 0) fresh_ret))).
  destruct (legacy_categories_loop (response_categories (json r))
              {| Legacy.error := Some 0%Z; Legacy.blocked := Some 0%Z;
                 Legacy.risklevel := None; Legacy.category := [] |} start)
    as (He & Hr & Hb & Hc); try done.
  assert (Legacy.on_ok (json r) =
          let ret := foldl Legacy.categories_step
                       {| Legacy.error := Some 0%Z; Legacy.blocked := Some 0%Z;
                          Legacy.risklevel := None; Legacy.category := [] |}
                       (response_categories (json r)) in
          match response_level (json r) with
          | Some lvl =>
              {| Legacy.error := Legacy.error ret;
                 Legacy.blocked :=
                   if (MIN_BLOCKED_RISK_LEVEL <=? lvl)%Z then Some 1%Z
                   else Legacy.blocked ret;
                 Legacy.risklevel := Some lvl;
                 Legacy.category := Legacy.category ret |}
          | None => ret
          end) as ->.
  { unfold Legacy.on_ok, response_level, response_categories.
    destruct (categorization (json r)) as [c|];
      [destruct (categories c)|];
      (destruct (threatRiskLevel (json r)) as [t|]; [by destruct (level t)|done]). }
  simpl. destruct (response_level (json r)) as [lvl|]; simpl; [|done].
  rewrite He, Hb, Hc. by destruct (MIN_BLOCKED_RISK_LEVEL <=? lvl)%Z.
Qed.

(** On a 200 answer the two scripts agree: the same verdict [blocked],
    error 0, and the risk level of the answer. The old script has no
    [risklevel] key when the answer has no level, and it collects category
    ids where the threaded script collects names. *)
Theorem legacy_rlcheck_agrees net ioc r :
  net (tex_api_url +:+ ioc) = Responded r →
  status_code r = 200%Z →
  ∃ old new,
    Legacy.rlcheck net ioc = Ok old ∧ rlcheck net ioc = Ok new ∧
    Legacy.error old = Some 0%Z ∧
    Legacy.blocked old = Some (blocked new) ∧
    Legacy.risklevel old = response_level (json r) ∧
    Legacy.category old = id <$> response_categories (json r).
Proof. apply legacy_rlcheck_ok. Qed.

Section LegacyRun.
Variable requests_get : string → http_outcome.
Variables outputfile_blocked outputfile_policy outputfile_error : string.
Variable header : list string.

Local Abbreviation main :=
  (Legacy.main requests_get outputfile_blocked outputfile_policy
     outputfile_error header).
Local Abbreviation loop :=
  (Legacy.loop requests_get outputfile_blocked outputfile_policy
     outputfile_error header).
Local Abbreviation loop_body :=
  (Legacy.loop_body requests_get outputfile_blocked outputfile_policy
     outputfile_error header).

(** An answer with a status code other than 200, 400, 401 and 429 makes
    [rlcheck.py] stop with [KeyError]: its [rlcheck] returns an empty
    dict, and [main] reads [ret['error']]. *)
Theorem legacy_unhandled_status_raises row rest ioc r fs0 :
  supported_row row = true →
  row !! "Indicator" = Some (VStr ioc) →
  requests_get (tex_api_url +:+ ioc) = Responded r →
  unhandled_status (status_code r) →
  main (row :: rest) fs0 = Raise (KeyError "error").
Proof.
  intros Hsup Hioc Hnet Hcode.
  assert (Legacy.rlcheck requests_get ioc =
          Ok {| Legacy.error := None; Legacy.blocked := None;
                Legacy.risklevel := None; Legacy.category := [] |}) as Hret.
  { unfold Legacy.rlcheck. rewrite Hnet. unfold unhandled_status in Hcode.
    repeat case_match; try done; exfalso; apply Hcode;
      match goal with H : (_ =? _)%Z = true |- _ => apply Z.eqb_eq in H; rewrite H end;
      repeat first [ by left | right ]. }
  unfold supported_row in Hsup.
  destruct (row !! "ThreatType") as [v|] eqn:Hv; [|done].
  unfold Legacy.main. simpl. unfold Legacy.loop_body. simpl.
  rewrite Hv, Hsup. unfold getitem_str. rewrite Hioc. simpl.
  by rewrite Hret.
Qed.

(** A 200 answer without a risk level makes [rlcheck.py] stop with
    [KeyError] as well: [main] prints [ret["risklevel"]], a key that its
    [rlcheck] sets only when the answer has a level. *)
Theorem legacy_missing_level_raises row rest ioc r fs0 :
  supported_row row = true →
  row !! "Indicator" = Some (VStr ioc) →
  requests_get (tex_api_url +:+ ioc) = Responded r →
  status_code r = 200%Z →
  response_level (json r) = None →
  main (row :: rest) fs0 = Raise (KeyError "risklevel").
Proof.
  intros Hsup Hioc Hnet Hst Hlvl.
  destruct (legacy_rlcheck_ok requests_get ioc r Hnet Hst)
    as (old & new & Hold & Hnew & He & Hb & Hr & _).
  destruct (blocked_verdict requests_get ioc r Hnet Hst)
    as (new' & Hnew' & Hrange & _).
  rewrite Hnew in Hnew'. injection Hnew' as <-.
  rewrite Hlvl in Hr.
  unfold supported_row in Hsup.
  destruct (row !! "ThreatType") as [v|] eqn:Hv; [|done].
  unfold Legacy.main. simpl. unfold Legacy.loop_body. simpl.
  rewrite Hv, Hsup. unfold getitem_str. rewrite Hioc. simpl.
  rewrite Hold. simpl. rewrite He, Hb, Hr. simpl.
  by destruct Hrange as [-> | ->].
Qed.

(** Appending to the three output files changes no other file. *)
Lemma loop_body_unsupported st row :
  is_Some (row !! "ThreatType") →
  supported_row row = false →
  ∃ st', loop_body st row = Ok st' ∧
    Legacy.blocked_count st' = Legacy.blocked_count st ∧
    Legacy.policy_count st' = Legacy.policy_count st ∧
    Legacy.error_count st' = Legacy.error_count st ∧
    ∀ p, p ∉ [outputfile_blocked; outputfile_policy; outputfile_error] →
         Legacy.fs st' !! p = Legacy.fs st !! p.
Proof.
  intros [v Hv] Hsup. unfold supported_row in Hsup. rewrite Hv in Hsup.
  unfold Legacy.loop_body. rewrite Hv, Hsup.
  eexists. split; [reflexivity|].
  destruct (Legacy.line_count st =? 0)%Z; simpl; [|done].
  repeat split; try done.
  intros p Hp. unfold Legacy.append_line.
  rewrite !lookup_alter_ne; [done|..]; intros ->; apply Hp;
    repeat first [ by left | right ].
Qed.

Lemma loop_unsupported rows st :
  Forall (fun row => is_Some (row !! "ThreatType") ∧ supported_row row = false) rows →
  ∃ st', loop st rows = Ok st' ∧
    Legacy.blocked_count st' = Legacy.blocked_count st ∧
    Legacy.policy_count st' = Legacy.policy_count st ∧
    Legacy.error_count st' = Legacy.error_count st ∧
    ∀ p, p ∉ [outputfile_blocked; outputfile_policy; outputfile_error] →
         Legacy.fs st' !! p = Legacy.fs st !! p.
Proof.
  intros Hrows. revert st.
  induction Hrows as [|row rows [Htt Hsup] _ IH]; intros st.
  - exists st. by simpl.
  - destruct (loop_body_unsupported st row Htt Hsup)
      as (st1 & Hbody & Hb & Hp & He & Hfs).
    destruct (IH st1) as (st' & Hloop & Hb' & Hp' & He' & Hfs').
    exists st'. simpl. rewrite Hbody. simpl.
    split; [done|]. rewrite Hb', Hp', He', Hb, Hp, He.
    repeat split; try done.
    intros p Hpath. rewrite Hfs' by done. by apply Hfs.
Qed.

(** [rlcheck.py] writes rows of an unsupported type nowhere: on an input
    without a supported row it returns, leaves none of its three output
    files behind, and changes no other file. *)
Theorem legacy_drops_unsupported_rows rows fs0 :
  Forall (fun row => is_Some (row !! "ThreatType") ∧ supported_row row = false) rows →
  ∃ fs', main rows fs0 = Ok fs' ∧
    ∀ p, fs' !! p =
         if bool_decide (p ∈ [outputfile_blocked; outputfile_policy; outputfile_error])
         then None else fs0 !! p.
Proof.
  intros Hrows. unfold Legacy.main.
  destruct (loop_unsupported rows
              {| Legacy.line_count := 0; Legacy.blocked_count := 0;
                 Legacy.policy_count := 0; Legacy.error_count := 0;
                 Legacy.fs := <[outputfile_error:=[]]>
                                (<[outputfile_policy:=[]]>
                                   (<[outputfile_blocked:=[]]> fs0)) |} Hrows)
    as (st & Hloop & Hb & Hp & He & Hfs).
  rewrite Hloop. simpl in *. rewrite Hb, Hp, He.
  eexists. split; [reflexivity|].
  intros p. unfold Legacy.remove_if_zero. simpl.
  case_bool_decide as Hin.
  - rewrite !lookup_delete.
    repeat (apply elem_of_cons in Hin as [-> | Hin]);
      repeat (case_decide; try done).
    by apply elem_of_nil in Hin.
  - assert (p ≠ outputfile_blocked ∧ p ≠ outputfile_policy ∧ p ≠ outputfile_error)
      as (H1 & H2 & H3).
    { repeat split; intros ->; apply Hin; repeat first [ by left | right ]. }
    rewrite !lookup_delete_ne by done. rewrite Hfs by done.
    by rewrite !lookup_insert_ne.
Qed.

End LegacyRun.
End LegacyResults.

(** ** The further properties at concrete inputs *)

Section MoreExamples.
Import Classifier Worker Aggregator Pipeline.

(** A 200 answer with two categories, the second one blocked, and no
    risk level. *)
Definition phishing_answer : response_t :=
  {| status_code := 200;
     json := {| categorization :=
                  Some {| categories :=
                            Some [ {| id := 38; name := "Technology/Internet" |};
                                   {| id := 18; name := "Phishing" |} ] |};
                threatRiskLevel := None |} |}.

Definition phishing : string → http_outcome := fun _ => Responded phishing_answer.

Lemma blocked_iff_category_or_level_witness :
  ∃ ret, rlcheck phishing "example.org" = Ok ret ∧
    (blocked ret = 0 ∨ blocked ret = 1) ∧
    (blocked ret = 1 ↔
     (∃ cat, cat ∈ response_categories (json phishing_answer) ∧
             id cat ∈ BLOCKED_CATEGORY_IDS) ∨
     (∃ lvl, response_level (json phishing_answer) = Some lvl ∧
             MIN_BLOCKED_RISK_LEVEL ≤ lvl)).
Proof.
  apply (blocked_iff_category_or_level phishing "example.org" phishing_answer);
    reflexivity.
Defined.

Lemma ok_result_fields_witness :
  ∃ ret, rlcheck phishing "example.org" = Ok ret ∧
    error ret = ErrCode 0 ∧
    category ret = name <$> response_categories (json phishing_answer) ∧
    risklevel ret = default 0 (response_level (json phishing_answer)).
Proof.
  apply (ok_result_fields phishing "example.org" phishing_answer); reflexivity.
Defined.

Lemma rlcheck_returns_status_codes_only_witness :
  (∃ r, answers 429 (tex_api_url +:+ "example.org") = Responded r) ∧
  error (set_error (ErrCode 429) fresh_ret)
    ∈ [ErrCode 0; ErrCode 400; ErrCode 401; ErrCode 429] ∧
  (∀ e, error (set_error (ErrCode 429) fresh_ret) ≠ ErrExc e).
Proof.
  apply (rlcheck_returns_status_codes_only (answers 429) "example.org").
  reflexivity.
Defined.

Lemma error_status_goes_to_error_sink_witness :
  do_work (answers 401) domain_row =
    Ok (domain_row, [Log (ErrCode 401) "example.org";
                     StatUpdate {| type := "error" |};
                     SinkWrite Error domain_row]).
Proof.
  apply (error_status_goes_to_error_sink (answers 401) domain_row "example.org"
           {| status_code := 401;
              json := {| categorization := None; threatRiskLevel := None |} |}).
  - reflexivity.
  - reflexivity.
  - apply (bool_decide_unpack _). exact I.
Defined.

Lemma do_work_returns_only_if_answered_witness :
  (∃ ioc r, domain_row !! "Indicator" = Some (VStr ioc) ∧
            answers 401 (tex_api_url +:+ ioc) = Responded r) ∧
  ∃ k, routed_to k (tag_of k) domain_row
         [Log (ErrCode 401) "example.org";
          StatUpdate {| type := "error" |};
          SinkWrite Error domain_row].
Proof.
  apply (do_work_returns_only_if_answered (answers 401) domain_row).
  reflexivity.
Defined.

Lemma unknown_tag_breaks_balance_witness :
  True ∧ ¬ balanced (apply_event zero {| type := "skipped" |}).
Proof.
  split; [exact I|].
  apply (unknown_tag_breaks_balance zero {| type := "skipped" |}).
  - apply (bool_decide_unpack _). exact I.
  - reflexivity.
Defined.

Lemma two_rows_run_reachable s :
  two_rows_run = Some s →
  reachable "output" "20211104093000" "iocs.csv" two_rows 1 ∅ s.
Proof.
  unfold two_rows_run. intros Hrun.
  destruct (startup "output" "20211104093000" "iocs.csv" two_rows 1 ∅)
    as [s0|] eqn:Hstart; [|done].
  by exists s0, one_worker_schedule.
Qed.

Lemma two_rows_run_done :
  ∃ s, two_rows_run = Some s ∧ main s = MDone.
Proof.
  destruct two_rows_run as [s|] eqn:Hrun; [|by vm_compute in Hrun].
  exists s. split; [done|].
  vm_compute in Hrun. by injection Hrun as <-.
Qed.

Lemma file_rows_are_submitted_prefix_witness :
  ∃ s lines,
    two_rows_run = Some s ∧
    fs s !! outputfile "output" "20211104093000" (role Error) "iocs.csv" =
      Some (Header (CSVWriter.fieldnames (sink Error s)) :: lines) ∧
    lines = Row <$> rows_of (Header (CSVWriter.fieldnames (sink Error s)) :: lines) ∧
    rows_of (Header (CSVWriter.fieldnames (sink Error s)) :: lines)
      `prefix_of` CSVWriter.submitted (sink Error s).
Proof.
  destruct two_rows_run_done as (s & Hrun & _).
  destruct (file_rows_are_submitted_prefix "output" "20211104093000" "iocs.csv"
              two_rows 1 ∅ s Error (two_rows_run_reachable s Hrun))
    as (lines & Hlines).
  exists s, lines. split; [exact Hrun | exact Hlines].
Defined.


(** The input file starts with a byte order mark. [main] reads the header
    with [encoding='utf-8-sig'], which drops the mark, and then the rows
    with the default encoding, which leaves it in the name of the first
    column. *)
Definition byte_order_mark : string :=
  String (Ascii.ascii_of_nat 239)
    (String (Ascii.ascii_of_nat 187) (String (Ascii.ascii_of_nat 191) "")).

Definition marked_row : IndicatorRecord :=
  <["ThreatType" := VStr "Hash"]>
    (<[byte_order_mark +:+ "Indicator" := VStr "d41d8cd98f00b204"]> ∅).

Definition marked_input : csv_file :=
  {| header := ["Indicator"; "ThreatType"]; rows := [marked_row] |}.

(** [main] hands the row to the error sink, whose writer thread takes it
    and calls [writerow]. *)
Definition writer_died : option state :=
  match startup "output" "20211104093000" "iocs.csv" marked_input 1 ∅ with
  | Ok s0 => run (replicate 3 TMain ++ replicate 3 (TWriter Error)) s0
  | Raise _ => None
  end.

Lemma dead_writer_blocks_main_witness :
  ∃ s s', writer_died = Some s ∧
    CSVWriter.writer (sink Error s) =
      CSVWriter.WrDead (ValueError "dict contains fields not in fieldnames") ∧
    run (replicate 9 TMain ++ [TStat]) s = Some s' ∧
    (0 < Queue.unfinished_tasks (CSVWriter.queue (sink Error s')))%nat ∧
    CSVWriter.finished (sink Error s') = false ∧
    CSVWriter.closed (sink Error s') = false ∧
    main s' ≠ MDone.
Proof.
  destruct writer_died as [s|] eqn:Hrun; [|by vm_compute in Hrun].
  assert (reachable "output" "20211104093000" "iocs.csv" marked_input 1 ∅ s)
    as Hreach.
  { unfold writer_died in Hrun.
    destruct (startup "output" "20211104093000" "iocs.csv" marked_input 1 ∅)
      as [s0|] eqn:Hstart; [|done].
    by eexists s0, _. }
  assert (CSVWriter.writer (sink Error s) =
            CSVWriter.WrDead (ValueError "dict contains fields not in fieldnames") ∧
          ∃ s', run (replicate 9 TMain ++ [TStat]) s = Some s') as [Hdead [s' Hnext]].
  { vm_compute in Hrun. injection Hrun as <-. split; [by vm_compute|].
    eexists. vm_compute. reflexivity. }
  exists s, s'. split; [done|]. split; [done|]. split; [done|].
  exact (dead_writer_blocks_main "output" "20211104093000" "iocs.csv"
           marked_input 1 ∅ s Error _ _ s' Hreach Hdead Hnext).
Defined.

Lemma completed_run_keeps_every_row_witness :
  ∃ s, two_rows_run = Some s ∧
    (∀ k, fs s !! outputfile "output" "20211104093000" (role k) "iocs.csv" =
            Some (Header (CSVWriter.fieldnames (sink k s))
                  :: (Row <$> CSVWriter.submitted (sink k s)))) ∧
    (length (CSVWriter.submitted (csv_blocked s)) +
     length (CSVWriter.submitted (csv_policy s)) +
     length (CSVWriter.submitted (csv_error s)) = length (rows two_rows))%nat.
Proof.
  destruct two_rows_run_done as (s & Hrun & Hm).
  exists s. split; [done|].
  apply (completed_run_keeps_every_row "output" "20211104093000" "iocs.csv"
           two_rows 1 ∅ s); [by apply two_rows_run_reachable | done].
Defined.

Lemma completed_run_counts_every_row_witness :
  ∃ s, two_rows_run = Some s ∧
    ioc_total (IOCStat.stats (stat s)) = Z.of_nat (length (rows two_rows)) ∧
    balanced (IOCStat.stats (stat s)) ∧
    Queue.items (IOCStat.queue (stat s)) = [].
Proof.
  destruct two_rows_run_done as (s & Hrun & Hm).
  exists s. split; [done|].
  apply (completed_run_counts_every_row "output" "20211104093000" "iocs.csv"
           two_rows 1 ∅ s); [by apply two_rows_run_reachable | done].
Defined.

(** [main] has read the first row and put it on the work queue. *)
Definition first_row_queued : option state :=
  match startup "output" "20211104093000" "iocs.csv" two_rows 1 ∅ with
  | Ok s0 => run [TMain; TMain] s0
  | Raise _ => None
  end.

Lemma only_supported_rows_reach_do_work_witness :
  ∃ s, first_row_queued = Some s ∧
       Queue.items (q s) = [address_row] ∧
       ∃ t, address_row !! "ThreatType" = Some (VStr t) ∧
            t ∈ SUPPORTED_THREAT_TYPES.
Proof.
  destruct first_row_queued as [s|] eqn:Hrun; [|by vm_compute in Hrun].
  assert (reachable "output" "20211104093000" "iocs.csv" two_rows 1 ∅ s) as Hreach.
  { unfold first_row_queued in Hrun.
    destruct (startup "output" "20211104093000" "iocs.csv" two_rows 1 ∅)
      as [s0|] eqn:Hstart; [|done].
    by exists s0, [TMain; TMain]. }
  assert (Queue.items (q s) = [address_row]) as Hq.
  { vm_compute in Hrun. injection Hrun as <-. by vm_compute. }
  exists s. split; [done|]. split; [done|].
  apply (only_supported_rows_reach_do_work "output" "20211104093000" "iocs.csv"
           two_rows 1 ∅ s address_row Hreach).
  left. rewrite Hq. by left.
Defined.

(** One row, and a network that fails: the only worker dies in [do_work]. *)
Definition one_row : csv_file :=
  {| header := ["ThreatType"; "Indicator"]; rows := [address_row] |}.

Definition worker_died : option state :=
  match startup "output" "20211104093000" "iocs.csv" one_row 1 ∅ with
  | Ok s0 =>
      run (replicate 2 TMain
           ++ replicate 3 (TWorker 0 (unreachable_network "timed out"))) s0
  | Raise _ => None
  end.

Lemma dead_worker_blocks_main_witness :
  ∃ s s', worker_died = Some s ∧
    run [TMain; TWriter Blocked; TStat] s = Some s' ∧
    after_join (main s') = false ∧
    main s' ≠ MDone ∧
    shutdown_event s' = false ∧
    ∀ k, CSVWriter.closed (sink k s') = false.
Proof.
  destruct worker_died as [s|] eqn:Hrun; [|by vm_compute in Hrun].
  assert (reachable "output" "20211104093000" "iocs.csv" one_row 1 ∅ s) as Hreach.
  { unfold worker_died in Hrun.
    destruct (startup "output" "20211104093000" "iocs.csv" one_row 1 ∅)
      as [s0|] eqn:Hstart; [|done].
    by eexists s0, _. }
  assert (threads s !! 0%nat = Some (WkDead (UnboundLocalError "response")) ∧
          ∃ s', run [TMain; TWriter Blocked; TStat] s = Some s') as [Hdead [s' Hnext]].
  { vm_compute in Hrun. injection Hrun as <-. split; [by vm_compute|].
    eexists. vm_compute. reflexivity. }
  exists s, s'. split; [done|]. split; [done|].
  exact (dead_worker_blocks_main "output" "20211104093000" "iocs.csv" one_row 1 ∅
           s 0%nat _ _ s' Hreach Hdead Hnext).
Defined.

Lemma legacy_rlcheck_agrees_witness :
  ∃ old new,
    Legacy.rlcheck phishing "example.org" = Ok old ∧
    rlcheck phishing "example.org" = Ok new ∧
    Legacy.error old = Some 0 ∧
    Legacy.blocked old = Some (blocked new) ∧
    Legacy.risklevel old = response_level (json phishing_answer) ∧
    Legacy.category old = id <$> response_categories (json phishing_answer).
Proof.
  apply (legacy_rlcheck_agrees phishing "example.org" phishing_answer);
    reflexivity.
Defined.

Lemma legacy_unhandled_status_raises_witness :
  Legacy.main (answers 503) "iocs.csv_blocked" "iocs.csv_policy" "iocs.csv_error"
    ["ThreatType"; "Indicator"] [domain_row; hash_row] ∅
  = Raise (KeyError "error").
Proof.
  eapply (legacy_unhandled_status_raises (answers 503) _ _ _ _ domain_row
            [hash_row] "example.org").
  - reflexivity.
  - reflexivity.
  - reflexivity.
  - apply (bool_decide_unpack _). exact I.
Defined.

Lemma legacy_missing_level_raises_witness :
  Legacy.main phishing "iocs.csv_blocked" "iocs.csv_policy" "iocs.csv_error"
    ["ThreatType"; "Indicator"] [domain_row] ∅
  = Raise (KeyError "risklevel").
Proof.
  apply (legacy_missing_level_raises phishing _ _ _ _ domain_row []
           "example.org" phishing_answer); reflexivity.
Defined.

Lemma legacy_drops_unsupported_rows_witness :
  ∃ fs', Legacy.main (rated 9) "iocs.csv_blocked" "iocs.csv_policy"
           "iocs.csv_error" ["ThreatType"; "Indicator"] [hash_row] ∅ = Ok fs' ∧
    ∀ p, fs' !! p =
         if bool_decide (p ∈ ["iocs.csv_blocked"; "iocs.csv_policy"; "iocs.csv_error"])
         then None else (∅ : filesystem) !! p.
Proof.
  apply (legacy_drops_unsupported_rows (rated 9) "iocs.csv_blocked"
           "iocs.csv_policy" "iocs.csv_error" ["ThreatType"; "Indicator"]
           [hash_row] ∅).
  repeat constructor. by eexists.
Defined.

Lemma legacy_main_leaves_no_empty_file_witness :
  True ∧
  rows_of [Header ["ThreatType"; "Indicator"]; Row address_row] ≠ [].
Proof.
  split; [exact I|].
  eapply (legacy_main_leaves_no_empty_file (rated 9) "iocs.csv_blocked"
           "iocs.csv_policy" "iocs.csv_error" ["ThreatType"; "Indicator"]
           ltac:(done) ltac:(done) ltac:(done)
           [address_row] ∅ _ "iocs.csv_blocked").
  - reflexivity.
  - by left.
  - by vm_compute.
Defined.

End MoreExamples.
